(** * NATTEN: the 1D neighborhood-neighborhood reference kernel

    A shallow embedding of
    [csrc/include/natten/cpu/naive/neighborhood_neighborhood_1d.hpp]
    (struct [NeighborhoodNeighborhood1D]: [operator()] and [launch]), the
    kernel that applies neighborhood attention weights to neighborhood
    values.

    Conventions of the embedding.
    - [int32_t] and [int64_t] values are integers of [Z].  Signed
      arithmetic whose result leaves its type is undefined behaviour: every
      multiplication, addition and increment of [launch] is checked against
      the range of its type, and a computation that leaves it has no
      result ([None]).
    - The three [scalar_t*] arguments point into one address space: a memory
      is a function from element addresses to scalars, a pointer is an
      address, and [p[k]] is the cell at address [p + k].
    - [scalar_t] is a parameter of the development, with its zero, its
      addition and its multiplication; no algebraic law is assumed of them.
    - A loop whose trip count is not fixed by its bounds takes fuel and
      has no result when the fuel runs out. *)

From Stdlib Require Import ZArith List Lia Bool Permutation SpecFloat.
From Stdlib Require Import String DecimalString.
Import ListNotations.
Local Open Scope Z_scope.

Set Implicit Arguments.

(** ** Control: the option monad and counted loops *)

Definition obind {A B : Type} (c : option A) (k : A -> option B) : option B :=
  match c with
  | Some x => k x
  | None => None
  end.

Notation "x <- c ;; k" := (obind c (fun x => k))
  (at level 61, c at next level, right associativity).

(** [for (int32_t x = lo; x < hi; x++) body], unrolled [n] times from [x]. *)
Fixpoint for_loop {St : Type} (n : nat) (x : Z) (body : Z -> St -> option St)
  (s : St) : option St :=
  match n with
  | O => Some s
  | S n' => s' <- body x s ;; for_loop n' (x + 1) body s'
  end.

Definition for_range {St : Type} (lo hi : Z) (body : Z -> St -> option St)
  (s : St) : option St :=
  for_loop (Z.to_nat (hi - lo)) lo body s.

(** The integers [lo, lo+1, ..., hi-1]. *)
Definition zrange (lo hi : Z) : list Z :=
  map (fun k => lo + Z.of_nat k) (seq 0 (Z.to_nat (hi - lo))).

(** Sequential composition of a body over a list of indices. *)
Fixpoint fold_opt {X St : Type} (body : X -> St -> option St) (l : list X)
  (s : St) : option St :=
  match l with
  | [] => Some s
  | x :: l' => s' <- body x s ;; fold_opt body l' s'
  end.


(** ** Machine integers *)

Definition INT32_MIN : Z := - 2 ^ 31.
Definition INT32_MAX : Z := 2 ^ 31 - 1.
Definition INT64_MAX : Z := 2 ^ 63 - 1.

Definition fits_int32 (x : Z) : Prop := INT32_MIN <= x <= INT32_MAX.

Definition fits_int64 (x : Z) : Prop := - 2 ^ 63 <= x <= INT64_MAX.

Definition fits_int32b (x : Z) : bool := (INT32_MIN <=? x) && (x <=? INT32_MAX).

Definition fits_int64b (x : Z) : bool := (- 2 ^ 63 <=? x) && (x <=? INT64_MAX).

(** The result of a signed operation: the mathematical value when the type
    holds it, nothing otherwise. *)
Definition int32 (x : Z) : option Z := if fits_int32b x then Some x else None.

Definition int64 (x : Z) : option Z := if fits_int64b x then Some x else None.

(** [x * y], [x + y] in [int64_t] and [x + y] in [int32_t]; the sums take
    operands that are themselves results. *)
Definition mul64 (x y : Z) : option Z := int64 (x * y).

Definition add64 (x y : option Z) : option Z :=
  match x, y with
  | Some x', Some y' => int64 (x' + y')
  | _, _ => None
  end.

Definition add32 (x y : Z) : option Z := int32 (x + y).

(** ** at::parallel_for

    [at::parallel_for(begin, end, grain_size, f)] belongs to the tensor
    library.  It cuts [begin, end) into chunks and calls [f(start, end)] on
    each of them, on some thread.  The cut is the library's choice: it is a
    parameter here, a scheduler that answers every invocation (numbered by
    [call]) with the list of chunks in the order in which they run. *)

Definition chunk : Type := (Z * Z)%type.

Definition scheduler : Type := Z -> Z -> Z -> Z -> list chunk.

Definition parallel_for {St : Type} (chunks : Z -> Z -> Z -> list chunk)
  (begin end_ grain_size : Z) (f : Z -> Z -> St -> option St)
  (s : St) : option St :=
  fold_opt (fun c => f (fst c) (snd c)) (chunks begin end_ grain_size) s.

(** The indices a list of chunks covers, in execution order. *)
Definition chunk_indices (cs : list chunk) : list Z :=
  flat_map (fun c => zrange (fst c) (snd c)) cs.

(** A scheduler is fair when the chunks of every invocation are a partition
    of the range it was given: every index in exactly one chunk, the chunks
    in any order. *)
Definition fair (sched : scheduler) : Prop :=
  forall call begin end_ grain_size,
    Permutation (chunk_indices (sched call begin end_ grain_size))
                (zrange begin end_).

(** The scheduler of a single thread: one chunk, the whole range. *)
Definition sequential : scheduler :=
  fun _ begin end_ _ => [(begin, end_)].

(** ** Window geometry

    [get_window_start] and [get_window_end] are declared in
    [natten/cpu/naive/natten_cpu_commons.h], which is not among the sources
    at hand. *)

Module WindowGeometry.

(** Modelled from the spec: [get_window_start] of
    [natten/cpu/naive/natten_cpu_commons.h] is missing.  Section 4.1 of the
    specification gives the contract
    [window_start(i, extent, kernel_size, neighborhood_radius, dilation,
    causal)].  The bounds are computed within the sub-problem induced by
    [i mod dilation]: [dilation_idx] is that residue, [index_pdp] the
    position of [i] among the positions of its residue and [length_pdp]
    their number.  Non-causal: the window is centred on [i]
    ([index_pdp - neighborhood_size]), clipped to the axis, then
    re-expanded on the opposite side by what the clip at the far end took
    away ([over]), staying inside the axis.  Causal:
    [max(0, i - kernel_size + 1)] in steps of the dilation. *)
Definition get_window_start (index length kernel_size neighborhood_size
                             dilation : Z) (is_causal : bool) : Z :=
  let dilation_idx := Z.rem index dilation in
  let index_pdp := Z.quot index dilation in
  let length_pdp :=
    Z.quot (length - dilation_idx + dilation - 1) dilation in
  let start_idx :=
    if is_causal then Z.max 0 (index_pdp - kernel_size + 1)
    else
      let lo := Z.max 0 (index_pdp - neighborhood_size) in
      let over :=
        Z.max 0 (index_pdp + neighborhood_size - (length_pdp - 1)) in
      Z.max 0 (lo - over) in
  start_idx * dilation + dilation_idx.

(** Modelled from the spec: [get_window_end] of
    [natten/cpu/naive/natten_cpu_commons.h] is missing.  Section 4.1 of the
    specification gives the contract
    [window_end(i, start, extent, kernel_size, neighborhood_radius,
    dilation, causal)], exclusive.  Non-causal: [kernel_size] dilated steps
    from the start, clipped to the axis.  Causal: [i + 1]. *)
Definition get_window_end (index start_index length kernel_size
                           neighborhood_size dilation : Z)
  (is_causal : bool) : Z :=
  if is_causal then index + 1
  else Z.min length (start_index + kernel_size * dilation).

End WindowGeometry.

(** ** The kernel *)

(** [#define GRAIN_SIZE 0] *)
Definition GRAIN_SIZE : Z := 0.

(** The arguments of [launch], named as in the source. *)
Module Args.
Record t : Type := Make {
  weights : Z;          (* scalar_t* weights:  attn   / d_attn  *)
  values : Z;           (* scalar_t* values:   value  / key     *)
  output : Z;           (* scalar_t* output:   output / d_query *)
  length : Z;
  heads : Z;
  kernel_size : Z;
  dilation : Z;
  dim : Z;
  batch_size : Z;
  weights_stride_0 : Z;
  weights_stride_1 : Z;
  weights_stride_2 : Z;
  is_causal : bool      (* std::get<0>(is_causal) *)
}.
End Args.

(** An output element: batch, head, query position, channel. *)
Record coord : Type := Coord { cb : Z; ch : Z; ci : Z; cd : Z }.

(** The output elements one head [h] of batch [b] is responsible for. *)
Definition head_jobs (a : Args.t) (b h : Z) : list coord :=
  flat_map (fun i => map (fun d => Coord b h i d) (zrange 0 (Args.dim a)))
           (zrange 0 (Args.length a)).

(** The output elements in the order in which [launch] computes them. *)
Definition jobs (sched : scheduler) (a : Args.t) : list coord :=
  flat_map (fun b =>
    flat_map (head_jobs a b)
             (chunk_indices (sched b 0 (Args.heads a) GRAIN_SIZE)))
    (zrange 0 (Args.batch_size a)).

(** Validated input: what the boundary guarantees of the sizes. *)
Definition validated (a : Args.t) : Prop :=
  1 <= Args.batch_size a /\ 1 <= Args.heads a /\ 1 <= Args.length a /\
  1 <= Args.dim a /\ 1 <= Args.kernel_size a /\
  Z.odd (Args.kernel_size a) = true /\ 1 <= Args.dilation a.

Section Kernel.

Variable scalar : Type.
Variable szero : scalar.                        (* scalar_t(0) *)
Variable sadd smul : scalar -> scalar -> scalar. (* +, * of scalar_t *)

(** The window functions the kernel is linked with. *)
Variable get_window_start : Z -> Z -> Z -> Z -> Z -> bool -> Z.
Variable get_window_end : Z -> Z -> Z -> Z -> Z -> Z -> bool -> Z.

Definition mem : Type := Z -> scalar.

(** [p[off] = v] *)
Definition store (m : mem) (p off : Z) (v : scalar) : mem :=
  fun a => if a =? p + off then v else m a.

(** A run is followed through the memory and through the list of the
    offsets at which [output] has been stored to, oldest first. *)
Definition state : Type := (mem * list Z)%type.

(** The innermost loop of [launch],
    [for (int32_t xi = ni; xi < ei; xi += dilation)], from the state
    [(xi, attnOffset, output_update)]. *)
Fixpoint window_loop (fuel : nat) (m : mem) (weights values : Z)
  (ei dilation values_stride_2 valuesOffset : Z)
  (xi attnOffset : Z) (output_update : scalar) : option scalar :=
  if xi <? ei then
    match fuel with
    | O => None
    | S fuel' =>
        valuesIndex <-
          add64 (Some valuesOffset) (mul64 xi values_stride_2) ;;
        let output_update :=
          sadd output_update
               (smul (m (weights + attnOffset)) (m (values + valuesIndex))) in
        attnOffset <- add64 (Some attnOffset) (Some 1) ;;
        xi <- add32 xi dilation ;;
        window_loop fuel' m weights values ei dilation values_stride_2
                    valuesOffset xi attnOffset output_update
    end
  else Some output_update.

(** [launch], with the store of its last statement recorded. *)
Definition launch_traced (sched : scheduler) (fuel : nat) (a : Args.t)
  (s : state) : option state :=
  let is_causal_0 := Args.is_causal a in
  let neighborhood_size := Z.quot (Args.kernel_size a) 2 in
  let values_stride_2 := Args.dim a in
  values_stride_1 <- mul64 (Args.length a) values_stride_2 ;;
  values_stride_0 <- mul64 (Args.heads a) values_stride_1 ;;
  for_range 0 (Args.batch_size a) (fun b =>
    parallel_for (sched b) 0 (Args.heads a) GRAIN_SIZE (fun start end_ =>
      for_range start end_ (fun h =>
        for_range 0 (Args.length a) (fun i =>
          let ni := get_window_start i (Args.length a) (Args.kernel_size a)
                      neighborhood_size (Args.dilation a) is_causal_0 in
          let ei := get_window_end i ni (Args.length a) (Args.kernel_size a)
                      neighborhood_size (Args.dilation a) is_causal_0 in
          for_range 0 (Args.dim a) (fun d s =>
            attnOffset <-
              add64 (add64 (mul64 b (Args.weights_stride_0 a))
                           (mul64 h (Args.weights_stride_1 a)))
                    (mul64 i (Args.weights_stride_2 a)) ;;
            valuesOffset <-
              add64 (add64 (mul64 b values_stride_0)
                           (mul64 h values_stride_1))
                    (Some d) ;;
            output_update <-
              window_loop fuel (fst s) (Args.weights a) (Args.values a) ei
                (Args.dilation a) values_stride_2 valuesOffset ni
                attnOffset szero ;;
            linearIndex <-
              add64 (add64 (add64 (mul64 b values_stride_0)
                                  (mul64 h values_stride_1))
                           (mul64 i values_stride_2))
                    (Some d) ;;
            Some (store (fst s) (Args.output a) linearIndex output_update,
                  snd s ++ [linearIndex])))))) s.

(** [launch]: the memory a call leaves. *)
Definition launch (sched : scheduler) (fuel : nat) (a : Args.t) (m : mem)
  : option mem :=
  option_map fst (launch_traced sched fuel a (m, [])).

(** ** The tensors behind the pointers

    What follows names what [launch] computes with: the shape, the strides
    [launch] derives from it, the window of a query position, and the three
    tensors as views of the memory. *)

Definition values_stride_2 (a : Args.t) : Z := Args.dim a.
Definition values_stride_1 (a : Args.t) : Z :=
  Args.length a * values_stride_2 a.
Definition values_stride_0 (a : Args.t) : Z :=
  Args.heads a * values_stride_1 a.

(** [(b, h, i, d)] is an element of the values/output shape. *)
Definition in_shape (a : Args.t) (b h i d : Z) : Prop :=
  0 <= b < Args.batch_size a /\ 0 <= h < Args.heads a /\
  0 <= i < Args.length a /\ 0 <= d < Args.dim a.

(** The offset of element [(b, h, i, d)] of values and of output. *)
Definition linear_index (a : Args.t) (b h i d : Z) : Z :=
  b * values_stride_0 a + h * values_stride_1 a + i * values_stride_2 a + d.

(** The offset of the first weight of query row [(b, h, i)]. *)
Definition attn_offset (a : Args.t) (b h i : Z) : Z :=
  b * Args.weights_stride_0 a + h * Args.weights_stride_1 a
  + i * Args.weights_stride_2 a.

(** Number of elements of the output tensor, and the region it occupies. *)
Definition numel (a : Args.t) : Z :=
  Args.batch_size a * (Args.heads a * (Args.length a * Args.dim a)).

Definition in_output (a : Args.t) (p : Z) : Prop :=
  Args.output a <= p < Args.output a + numel a.

Definition window_start (a : Args.t) (i : Z) : Z :=
  get_window_start i (Args.length a) (Args.kernel_size a)
    (Z.quot (Args.kernel_size a) 2) (Args.dilation a) (Args.is_causal a).

Definition window_end (a : Args.t) (i : Z) : Z :=
  get_window_end i (window_start a i) (Args.length a) (Args.kernel_size a)
    (Z.quot (Args.kernel_size a) 2) (Args.dilation a) (Args.is_causal a).

(** How many of [start, start + step, start + 2 step, ...] lie below
    [stop]. *)
Definition steps_below (start step stop : Z) : Z :=
  (stop - start + step - 1) / step.

Definition num_neighbors (a : Args.t) (i : Z) : Z :=
  steps_below (window_start a i) (Args.dilation a) (window_end a i).

(** The [k]-th neighbor of query position [i]. *)
Definition neighbor (a : Args.t) (i k : Z) : Z :=
  window_start a i + k * Args.dilation a.

Definition weights_at (a : Args.t) (m : mem) (b h i k : Z) : scalar :=
  m (Args.weights a + (attn_offset a b h i + k)).

Definition values_at (a : Args.t) (m : mem) (b h x d : Z) : scalar :=
  m (Args.values a + linear_index a b h x d).

Definition output_at (a : Args.t) (m : mem) (b h i d : Z) : scalar :=
  m (Args.output a + linear_index a b h i d).

(** A sum of scalars, added one after the other to [scalar_t(0)]. *)
Definition ssum (terms : list scalar) : scalar := fold_left sadd terms szero.

(** The aggregate pattern as the specification words it:
    [sum over k of weights[b,h,i,k] * values[b,h,neighbor(i,k),d]]. *)
Definition aggregate (a : Args.t) (m : mem) (b h i d : Z) : scalar :=
  ssum (map (fun k => smul (weights_at a m b h i k)
                           (values_at a m b h (neighbor a i k) d))
            (zrange 0 (num_neighbors a i))).

(** The addresses the computation of output element [(b, h, i, d)] reads. *)
Definition reads (a : Args.t) (b h i d : Z) : list Z :=
  flat_map (fun k => [Args.weights a + (attn_offset a b h i + k);
                      Args.values a + linear_index a b h (neighbor a i k) d])
           (zrange 0 (num_neighbors a i)).

(** The output tensor overlaps nothing the kernel reads. *)
Definition no_alias (a : Args.t) : Prop :=
  forall b h i d, in_shape a b h i d ->
  forall p, In p (reads a b h i d) -> ~ in_output a p.

(** The same, as a check that runs. *)
Definition in_outputb (a : Args.t) (p : Z) : bool :=
  (Args.output a <=? p) && (p <? Args.output a + numel a).

Definition no_aliasb (a : Args.t) : bool :=
  forallb (fun b => forallb (fun h => forallb (fun i => forallb (fun d =>
    forallb (fun p => negb (in_outputb a p)) (reads a b h i d))
    (zrange 0 (Args.dim a))) (zrange 0 (Args.length a)))
    (zrange 0 (Args.heads a))) (zrange 0 (Args.batch_size a)).

(** The fuel covers the longest window. *)
Definition enough_fuel (a : Args.t) (fuel : nat) : Prop :=
  forall i, 0 <= i < Args.length a -> num_neighbors a i <= Z.of_nat fuel.


(** ** Arithmetic that stays inside its type

    The products and sums [launch] computes, in the order in which the
    source computes them: the two strides, the offsets of one output
    element, and what one iteration of the innermost loop adds. *)

Definition strides_fit (a : Args.t) : Prop :=
  fits_int64 (values_stride_1 a) /\ fits_int64 (values_stride_0 a).

Definition offsets_fit (a : Args.t) (b h i d : Z) : Prop :=
  fits_int64 (b * Args.weights_stride_0 a)
  /\ fits_int64 (h * Args.weights_stride_1 a)
  /\ fits_int64 (b * Args.weights_stride_0 a + h * Args.weights_stride_1 a)
  /\ fits_int64 (i * Args.weights_stride_2 a)
  /\ fits_int64 (attn_offset a b h i)
  /\ fits_int64 (b * values_stride_0 a)
  /\ fits_int64 (h * values_stride_1 a)
  /\ fits_int64 (b * values_stride_0 a + h * values_stride_1 a)
  /\ fits_int64 (b * values_stride_0 a + h * values_stride_1 a + d)
  /\ fits_int64 (i * values_stride_2 a)
  /\ fits_int64 (b * values_stride_0 a + h * values_stride_1 a
                 + i * values_stride_2 a)
  /\ fits_int64 (linear_index a b h i d).

(** Iteration [k] of the window loop of element [(b, h, i, d)]:
    [xi * values_stride_2], [valuesIndex], [++attnOffset] and
    [xi += dilation]. *)
Definition step_fits (a : Args.t) (b h i d k : Z) : Prop :=
  fits_int64 (neighbor a i k * values_stride_2 a)
  /\ fits_int64 (b * values_stride_0 a + h * values_stride_1 a + d
                 + neighbor a i k * values_stride_2 a)
  /\ fits_int64 (attn_offset a b h i + k + 1)
  /\ fits_int32 (neighbor a i k + Args.dilation a).

(** No operation of the call leaves its type. *)
Definition machine_safe (a : Args.t) : Prop :=
  strides_fit a
  /\ forall b h i d, in_shape a b h i d ->
       offsets_fit a b h i d
       /\ forall k, 0 <= k < num_neighbors a i -> step_fits a b h i d k.

(** The same, as checks that run. *)
Definition offsets_fitb (a : Args.t) (b h i d : Z) : bool :=
  fits_int64b (b * Args.weights_stride_0 a)
  && fits_int64b (h * Args.weights_stride_1 a)
  && fits_int64b (b * Args.weights_stride_0 a + h * Args.weights_stride_1 a)
  && fits_int64b (i * Args.weights_stride_2 a)
  && fits_int64b (attn_offset a b h i)
  && fits_int64b (b * values_stride_0 a)
  && fits_int64b (h * values_stride_1 a)
  && fits_int64b (b * values_stride_0 a + h * values_stride_1 a)
  && fits_int64b (b * values_stride_0 a + h * values_stride_1 a + d)
  && fits_int64b (i * values_stride_2 a)
  && fits_int64b (b * values_stride_0 a + h * values_stride_1 a
                  + i * values_stride_2 a)
  && fits_int64b (linear_index a b h i d).

Definition step_fitsb (a : Args.t) (b h i d k : Z) : bool :=
  fits_int64b (neighbor a i k * values_stride_2 a)
  && fits_int64b (b * values_stride_0 a + h * values_stride_1 a + d
                  + neighbor a i k * values_stride_2 a)
  && fits_int64b (attn_offset a b h i + k + 1)
  && fits_int32b (neighbor a i k + Args.dilation a).

Definition machine_safeb (a : Args.t) : bool :=
  fits_int64b (values_stride_1 a) && fits_int64b (values_stride_0 a)
  && forallb (fun b => forallb (fun h => forallb (fun i => forallb (fun d =>
       offsets_fitb a b h i d
       && forallb (step_fitsb a b h i d) (zrange 0 (num_neighbors a i)))
       (zrange 0 (Args.dim a))) (zrange 0 (Args.length a)))
       (zrange 0 (Args.heads a))) (zrange 0 (Args.batch_size a)).

(** ** The iteration space

    The loop nest of [launch] visits output elements; [jobs] lists them in
    the order of the visit, and [element_step] is the body of the [d]
    loop. *)

Definition element_step (fuel : nat) (a : Args.t) (c : coord) (s : state)
  : option state :=
  attnOffset <-
    add64 (add64 (mul64 (cb c) (Args.weights_stride_0 a))
                 (mul64 (ch c) (Args.weights_stride_1 a)))
          (mul64 (ci c) (Args.weights_stride_2 a)) ;;
  valuesOffset <-
    add64 (add64 (mul64 (cb c) (values_stride_0 a))
                 (mul64 (ch c) (values_stride_1 a)))
          (Some (cd c)) ;;
  output_update <-
    window_loop fuel (fst s) (Args.weights a) (Args.values a)
      (window_end a (ci c)) (Args.dilation a) (values_stride_2 a)
      valuesOffset (window_start a (ci c)) attnOffset szero ;;
  linearIndex <-
    add64 (add64 (add64 (mul64 (cb c) (values_stride_0 a))
                        (mul64 (ch c) (values_stride_1 a)))
                 (mul64 (ci c) (values_stride_2 a)))
          (Some (cd c)) ;;
  Some (store (fst s) (Args.output a) linearIndex output_update,
        snd s ++ [linearIndex]).

End Kernel.

(** [operator()]: the entry point casts the three [void*] arguments to
    [scalar_t*] and hands its arguments to [launch] in [launch]'s order. *)
Definition NeighborhoodNeighborhood1D (scalar : Type) (szero : scalar)
  (sadd smul : scalar -> scalar -> scalar) (sched : scheduler) (fuel : nat)
  (attn_ptr value_ptr output_ptr : Z)
  (batch_size heads length dim : Z)
  (attn_stride_0 attn_stride_1 attn_stride_2 : Z)
  (kernel_size dilation : Z) (is_causal : bool)
  (m : mem scalar) : option (mem scalar) :=
  launch szero sadd smul
    WindowGeometry.get_window_start WindowGeometry.get_window_end
    sched fuel
    (Args.Make attn_ptr value_ptr output_ptr length heads kernel_size
       dilation dim batch_size attn_stride_0 attn_stride_1 attn_stride_2
       is_causal) m.


(** Checks that run, for the side conditions of the theorems. *)
Definition enough_fuelb (get_window_start : Z -> Z -> Z -> Z -> Z -> bool -> Z)
  (get_window_end : Z -> Z -> Z -> Z -> Z -> Z -> bool -> Z)
  (a : Args.t) (fuel : nat) : bool :=
  forallb (fun i => num_neighbors get_window_start get_window_end a i
                    <=? Z.of_nat fuel)
          (zrange 0 (Args.length a)).

(** ** Element types

    The kernel is a template over [scalar_t].  Two instances are spelled
    out: exact integers, and half precision. *)

(** [c10::Half], IEEE binary16, over the executable floating-point
    specification of the standard library.  The tensor library computes on
    halves through single precision: both operands are converted to
    [float], the operation is done there, and the result is rounded to half
    (round to nearest, ties to even). *)
Module Half.

Definition prec16 : Z := 11.
Definition emax16 : Z := 16.
Definition prec32 : Z := 24.
Definition emax32 : Z := 128.

(** Rounding of a real value held in any format to the format
    [(prec, emax)]. *)
Definition round_to (prec emax : Z) (x : spec_float) : spec_float :=
  match x with
  | S754_finite s m e => binary_round prec emax s m e
  | _ => x
  end.

(** [static_cast<float>(h)]: exact. *)
Definition to_float (h : spec_float) : spec_float := round_to prec32 emax32 h.

(** [static_cast<Half>(f)] *)
Definition of_float (f : spec_float) : spec_float := round_to prec16 emax16 f.

Definition float_add : spec_float -> spec_float -> spec_float :=
  SFadd prec32 emax32.
Definition float_mul : spec_float -> spec_float -> spec_float :=
  SFmul prec32 emax32.

Definition zero : spec_float := S754_zero false.
Definition add (x y : spec_float) : spec_float :=
  of_float (float_add (to_float x) (to_float y)).
Definition mul (x y : spec_float) : spec_float :=
  of_float (float_mul (to_float x) (to_float y)).

(** The half holding the integer [n] (for [0 <= n], exactly when [n] has at
    most 11 significant bits). *)
Definition of_Z (n : Z) : spec_float :=
  binary_normalize prec16 emax16 n 0 false.

End Half.

(** The aggregate as it would be with a single-precision accumulator: the
    products and the running sum in [float], one rounding to half at the
    store. *)
Definition aggregate_in_float
  (get_window_start : Z -> Z -> Z -> Z -> Z -> bool -> Z)
  (get_window_end : Z -> Z -> Z -> Z -> Z -> Z -> bool -> Z)
  (a : Args.t) (m : mem spec_float) (b h i d : Z) : spec_float :=
  Half.of_float
    (fold_left Half.float_add
       (map (fun k =>
               Half.float_mul
                 (Half.to_float (weights_at a m b h i k))
                 (Half.to_float
                    (values_at a m b h (neighbor get_window_start a i k) d)))
            (zrange 0 (num_neighbors get_window_start get_window_end a i)))
       (Half.to_float Half.zero)).

(** ** Strided views

    A tensor of four axes seen through a base pointer and one stride per
    axis; the aggregate over a values tensor given that way. *)
Record strides : Type := Strides { st0 : Z; st1 : Z; st2 : Z; st3 : Z }.

Definition strided_at (scalar : Type) (m : mem scalar) (p : Z) (s : strides)
  (x0 x1 x2 x3 : Z) : scalar :=
  m (p + (x0 * st0 s + x1 * st1 s + x2 * st2 s + x3 * st3 s)).

Definition aggregate_strided (scalar : Type) (szero : scalar)
  (sadd smul : scalar -> scalar -> scalar)
  (get_window_start : Z -> Z -> Z -> Z -> Z -> bool -> Z)
  (get_window_end : Z -> Z -> Z -> Z -> Z -> Z -> bool -> Z)
  (a : Args.t) (values_strides : strides) (m : mem scalar) (b h i d : Z)
  : scalar :=
  ssum szero sadd
    (map (fun k => smul (weights_at a m b h i k)
                        (strided_at m (Args.values a) values_strides
                           b h (neighbor get_window_start a i k) d))
         (zrange 0 (num_neighbors get_window_start get_window_end a i))).

(** A four-axis view is a valid layout of a shape when distinct elements
    of the shape sit at distinct addresses. *)
Definition valid_layout (a : Args.t) (s : strides) : Prop :=
  forall b h i d b' h' i' d',
    in_shape a b h i d -> in_shape a b' h' i' d' ->
    b * st0 s + h * st1 s + i * st2 s + d * st3 s
    = b' * st0 s + h' * st1 s + i' * st2 s + d' * st3 s ->
    b = b' /\ h = h' /\ i = i' /\ d = d'.

(** ** Layouts the boundary hands over

    The weights tensor in its documented contiguous layout
    [batch, heads, length, kernel_size], and an output tensor that lies
    apart from the two input tensors. *)
Definition weights_contiguous (a : Args.t) : Prop :=
  Args.weights_stride_2 a = Args.kernel_size a /\
  Args.weights_stride_1 a = Args.length a * Args.kernel_size a /\
  Args.weights_stride_0 a
  = Args.heads a * (Args.length a * Args.kernel_size a).

Definition weights_numel (a : Args.t) : Z :=
  Args.batch_size a
  * (Args.heads a * (Args.length a * Args.kernel_size a)).

Definition separated (a : Args.t) : Prop :=
  (Args.output a + numel a <= Args.weights a \/
   Args.weights a + weights_numel a <= Args.output a) /\
  (Args.output a + numel a <= Args.values a \/
   Args.values a + numel a <= Args.output a).

(** ** The scenario of the specification

    One batch, one head, length 5, dim 1, kernel size 3, dilation 1, the
    weights contiguous. *)
Definition scenario_args (w v o : Z) (causal : bool) : Args.t :=
  Args.Make w v o 5 1 3 1 1 1 15 15 3 causal.

(** The output tensor of the scenario, read back as a list. *)
Definition scenario_output (scalar : Type) (m : mem scalar) (o : Z)
  : list scalar :=
  map (fun i => m (o + i)) (zrange 0 5).

(** ** Instances for the layout and precision questions *)

(** A values tensor of shape [1, 1, 2, 1] whose rows are two cells apart:
    the cell between them belongs to nobody. *)
Module Padded.

Definition args : Args.t := Args.Make 0 10 20 2 1 1 1 1 1 2 2 1 false.

Definition values_strides : strides := Strides 4 4 2 1.

Definition memory : mem Z :=
  fun p =>
    if p =? 0 then 1 else if p =? 1 then 1
    else if p =? 10 then 5 else if p =? 11 then 99 else if p =? 12 then 7
    else 0.

End Padded.

(** Half precision, length 3, kernel size 3: every window is the whole
    axis; the weights are 1 and the values are 2048, 1, 1. *)
Module HalfSum.

Definition args : Args.t := Args.Make 0 9 12 3 1 3 1 1 1 9 9 3 false.

Definition memory : mem spec_float :=
  fun p =>
    if p =? 9 then Half.of_Z 2048
    else if (0 <=? p) && (p <? 12) then Half.of_Z 1
    else Half.zero.

End HalfSum.

(** A scheduler that does its work only when asked with grain size 0. *)
Definition only_at_grain_0 : scheduler :=
  fun _ begin end_ grain_size =>
    if grain_size =? 0 then [(begin, end_)] else [].

(** ** The tiled kernels of [autogen/src/cuda/gemm/2d/sm80/source_19.cu]

    Each function of that file instantiates the template
    [NeighborhoodNeighborhood2D] (declared in [natten/cuda/gemm/na2d.cuh],
    not among the sources at hand) with four configuration types and hands
    its eleven arguments over unchanged.  A wrapper is recorded with its
    name and the template arguments of [GemmConfig2D], [ArchArgs],
    [AlignmentConfig] and [DTypeConfig], in the order of the source. *)
Module Gemm2D.

Record wrapper : Type := Wrapper {
  name : string;
  gemm_config : list Z;        (* GemmConfig2D<...> *)
  arch : Z;                    (* ArchArgs<arch, ...> *)
  arch_dtype : string;         (* ArchArgs<..., dtype> *)
  alignment_config : list Z;   (* AlignmentConfig<...> *)
  dtype : string               (* DTypeConfig<natten::dtype> *)
}.

Definition source_19 : list wrapper := [
  Wrapper "na2d_nn_cuda_gemm_bfloat16_64x64x32_32x32x32_16x8x16_3_sm80_ks11_align4"
    [64; 64; 32; 32; 32; 32; 16; 8; 16; 3; 8; 2; 5] 80 "bfloat16" [1; 4; 4] "bfloat16";
  Wrapper "na2d_nn_cuda_gemm_bfloat16_64x64x32_32x32x32_16x8x16_3_sm80_ks11_align2"
    [64; 64; 32; 32; 32; 32; 16; 8; 16; 3; 8; 2; 5] 80 "bfloat16" [1; 2; 2] "bfloat16";
  Wrapper "na2d_nn_cuda_gemm_bfloat16_64x64x32_32x32x32_16x8x16_3_sm80_ks13_align8"
    [64; 64; 32; 32; 32; 32; 16; 8; 16; 3; 8; 2; 6] 80 "bfloat16" [1; 8; 8] "bfloat16";
  Wrapper "na2d_nn_cuda_gemm_bfloat16_64x64x32_32x32x32_16x8x16_3_sm80_ks13_align4"
    [64; 64; 32; 32; 32; 32; 16; 8; 16; 3; 8; 2; 6] 80 "bfloat16" [1; 4; 4] "bfloat16";
  Wrapper "na2d_nn_cuda_gemm_bfloat16_64x64x32_32x32x32_16x8x16_3_sm80_ks13_align2"
    [64; 64; 32; 32; 32; 32; 16; 8; 16; 3; 8; 2; 6] 80 "bfloat16" [1; 2; 2] "bfloat16";
  Wrapper "na2d_nn_cuda_gemm_bfloat16_64x64x32_32x32x32_16x8x16_3_sm80_ks15_align8"
    [64; 64; 32; 32; 32; 32; 16; 8; 16; 3; 8; 2; 7] 80 "bfloat16" [1; 8; 8] "bfloat16";
  Wrapper "na2d_nn_cuda_gemm_bfloat16_64x64x32_32x32x32_16x8x16_3_sm80_ks15_align4"
    [64; 64; 32; 32; 32; 32; 16; 8; 16; 3; 8; 2; 7] 80 "bfloat16" [1; 4; 4] "bfloat16";
  Wrapper "na2d_nn_cuda_gemm_bfloat16_64x64x32_32x32x32_16x8x16_3_sm80_ks15_align2"
    [64; 64; 32; 32; 32; 32; 16; 8; 16; 3; 8; 2; 7] 80 "bfloat16" [1; 2; 2] "bfloat16";
  Wrapper "na2d_nn_cuda_gemm_bfloat16_64x64x32_32x32x32_16x8x16_3_sm80_ks17_align8"
    [64; 64; 32; 32; 32; 32; 16; 8; 16; 3; 8; 2; 8] 80 "bfloat16" [1; 8; 8] "bfloat16";
  Wrapper "na2d_nn_cuda_gemm_bfloat16_64x64x32_32x32x32_16x8x16_3_sm80_ks17_align4"
    [64; 64; 32; 32; 32; 32; 16; 8; 16; 3; 8; 2; 8] 80 "bfloat16" [1; 4; 4] "bfloat16";
  Wrapper "na2d_nn_cuda_gemm_bfloat16_64x64x32_32x32x32_16x8x16_3_sm80_ks17_align2"
    [64; 64; 32; 32; 32; 32; 16; 8; 16; 3; 8; 2; 8] 80 "bfloat16" [1; 2; 2] "bfloat16";
  Wrapper "na2d_nn_cuda_gemm_bfloat16_64x64x32_32x32x32_16x8x16_3_sm80_ks19_align8"
    [64; 64; 32; 32; 32; 32; 16; 8; 16; 3; 8; 2; 9] 80 "bfloat16" [1; 8; 8] "bfloat16";
  Wrapper "na2d_nn_cuda_gemm_bfloat16_64x64x32_32x32x32_16x8x16_3_sm80_ks19_align4"
    [64; 64; 32; 32; 32; 32; 16; 8; 16; 3; 8; 2; 9] 80 "bfloat16" [1; 4; 4] "bfloat16";
  Wrapper "na2d_nn_cuda_gemm_bfloat16_64x64x32_32x32x32_16x8x16_3_sm80_ks19_align2"
    [64; 64; 32; 32; 32; 32; 16; 8; 16; 3; 8; 2; 9] 80 "bfloat16" [1; 2; 2] "bfloat16";
  Wrapper "na2d_nn_cuda_gemm_bfloat16_128x128x32_64x64x32_16x8x16_3_sm80_ks21_align8"
    [128; 128; 32; 64; 64; 32; 16; 8; 16; 3; 11; 2; 10] 80 "bfloat16" [1; 8; 8] "bfloat16"
].

(** Decimal numeral of a natural number. *)
Definition dec (z : Z) : string :=
  NilZero.string_of_uint (N.to_uint (Z.to_N z)).

(** The name the generator's scheme gives to a configuration: element type,
    the three tile shapes, the number of stages, the architecture, the
    kernel size [2 r + 1] for the neighborhood radius [r] that closes
    [GemmConfig2D], and the alignment. *)
Definition scheme_name (g : list Z) (arch : Z) (al : list Z) (dt : string)
  : string :=
  let x := nth_default 0 g in
  ("na2d_nn_cuda_gemm_" ++ dt
   ++ "_" ++ dec (x 0%nat) ++ "x" ++ dec (x 1%nat) ++ "x" ++ dec (x 2%nat)
   ++ "_" ++ dec (x 3%nat) ++ "x" ++ dec (x 4%nat) ++ "x" ++ dec (x 5%nat)
   ++ "_" ++ dec (x 6%nat) ++ "x" ++ dec (x 7%nat) ++ "x" ++ dec (x 8%nat)
   ++ "_" ++ dec (x 9%nat)
   ++ "_sm" ++ dec arch
   ++ "_ks" ++ dec (2 * x 12%nat + 1)
   ++ "_align" ++ dec (nth_default 0 al 1%nat))%string.

(** The key under which the dispatcher looks a wrapper up: kernel size and
    alignment (the element type, the architecture and the operation are the
    same throughout the file). *)
Definition kernel_size (w : wrapper) : Z :=
  2 * nth_default 0 (gemm_config w) 12%nat + 1.

Definition alignment (w : wrapper) : Z :=
  nth_default 0 (alignment_config w) 1%nat.

End Gemm2D.

(** Dilation 2 on an axis of 9 positions, kernel size 3: the third
    scenario of the specification. *)
Definition dilated_args (causal : bool) : Args.t :=
  Args.Make 0 100 200 9 1 3 2 1 1 27 27 3 causal.

(** ** A worked instance

    Batch 2, heads 2, length 5, dim 2, kernel size 3, dilation 1, not
    causal, over exact integers; weights contiguous at address 0, values at
    100, output at 200. *)
Module Example.

Definition args : Args.t :=
  Args.Make 0 100 200 5 2 3 1 2 2 30 15 3 false.

Definition memory : mem Z := fun p => p mod 7 - 3.

(** Two threads, the second chunk run first. *)
Definition two_threads : scheduler :=
  fun _ begin end_ _ =>
    let mid := begin + (end_ - begin) / 2 in
    [(mid, end_); (begin, mid)].

End Example.

(** Variations of the worked instance: no heads; one batch, one head and
    the largest dilation an [int32_t] holds, with a causal window; the
    output tensor filled with 42 beforehand. *)
Module Variant.

Definition no_heads : Args.t :=
  Args.Make 0 100 200 5 0 3 1 2 2 30 15 3 false.

Definition wide_dilation : Args.t :=
  Args.Make 0 100 200 5 1 3 INT32_MAX 1 1 15 15 3 true.

Definition dirty_output : mem Z :=
  fun p => if in_outputb Example.args p then 42 else Example.memory p.

End Variant.

(** * Properties *)

(** ** Loops as folds over their index lists *)

Section Loops.

Variable St : Type.

Lemma for_loop_fold (body : Z -> St -> option St) n x s :
  for_loop n x body s
  = fold_opt body (map (fun k => x + Z.of_nat k) (seq 0 n)) s.
Proof.
  revert x s; induction n as [|n IH]; intros x s; simpl; [reflexivity|].
  rewrite Z.add_0_r. destruct (body x s) as [s'|]; simpl; [|reflexivity].
  rewrite IH, <- seq_shift, map_map. f_equal.
  apply map_ext; intros k. lia.
Qed.

Lemma for_range_fold (body : Z -> St -> option St) lo hi s :
  for_range lo hi body s = fold_opt body (zrange lo hi) s.
Proof. apply for_loop_fold. Qed.

Lemma fold_opt_app (X : Type) (body : X -> St -> option St) l1 l2 s :
  fold_opt body (l1 ++ l2) s
  = (s' <- fold_opt body l1 s ;; fold_opt body l2 s').
Proof.
  revert s; induction l1 as [|x l1 IH]; intros s; simpl; [reflexivity|].
  destruct (body x s); simpl; auto.
Qed.

Lemma fold_opt_ext (X : Type) (f g : X -> St -> option St) l s :
  (forall x s', In x l -> f x s' = g x s') ->
  fold_opt f l s = fold_opt g l s.
Proof.
  revert s; induction l as [|x l IH]; intros s H; simpl; [reflexivity|].
  rewrite (H x s (or_introl eq_refl)).
  destruct (g x s); simpl; [|reflexivity].
  apply IH; intros; apply H; right; assumption.
Qed.

(** A loop nest whose body does not look at the outer index is one loop
    over the concatenated inner ranges. *)
Lemma fold_opt_flat_map (X Y : Type) (inner : X -> list Y)
  (body : Y -> St -> option St) l s :
  fold_opt (fun x => fold_opt body (inner x)) l s
  = fold_opt body (flat_map inner l) s.
Proof.
  revert s; induction l as [|x l IH]; intros s; simpl; [reflexivity|].
  rewrite fold_opt_app.
  destruct (fold_opt body (inner x) s); simpl; auto.
Qed.

Lemma fold_opt_map (X Y : Type) (g : X -> Y) (body : Y -> St -> option St)
  l s :
  fold_opt body (map g l) s = fold_opt (fun x => body (g x)) l s.
Proof.
  revert s; induction l as [|x l IH]; intros s; simpl; [reflexivity|].
  destruct (body (g x) s); simpl; auto.
Qed.

End Loops.

(** ** Index ranges *)

Lemma in_zrange lo hi x : In x (zrange lo hi) <-> lo <= x < hi.
Proof.
  unfold zrange. rewrite in_map_iff. split.
  - intros [k [<- Hk]]. apply in_seq in Hk. lia.
  - intros H. exists (Z.to_nat (x - lo)). split; [lia|].
    apply in_seq. lia.
Qed.

Lemma NoDup_zrange lo hi : NoDup (zrange lo hi).
Proof.
  unfold zrange.
  generalize (Z.to_nat (hi - lo)) as n. intros n.
  generalize (seq_NoDup n 0). generalize (seq 0 n) as l.
  induction l as [|k l IH]; intros H; simpl; [constructor|].
  inversion H as [|? ? Hk Hl]; subst. constructor; [|auto].
  rewrite in_map_iff. intros [k' [E Hk']].
  assert (k' = k) by lia. subst. contradiction.
Qed.

Lemma zrange_nil lo hi : hi <= lo -> zrange lo hi = [].
Proof.
  intros H. unfold zrange. replace (Z.to_nat (hi - lo)) with O by lia.
  reflexivity.
Qed.

Lemma zrange_cons lo hi : lo < hi -> zrange lo hi = lo :: zrange (lo + 1) hi.
Proof.
  intros H. unfold zrange.
  replace (Z.to_nat (hi - lo)) with (S (Z.to_nat (hi - (lo + 1)))) by lia.
  simpl. rewrite Z.add_0_r. f_equal.
  rewrite <- seq_shift, map_map. apply map_ext. intros k. lia.
Qed.

(** The ranges of two shifted loops are the same list, shifted. *)
Lemma zrange_shift lo hi c :
  zrange (lo + c) (hi + c) = map (fun k => k + c) (zrange lo hi).
Proof.
  unfold zrange. replace (hi + c - (lo + c)) with (hi - lo) by lia.
  rewrite map_map. apply map_ext. intros k. lia.
Qed.

(** ** Arithmetic of windows and of the row-major layout *)

Lemma steps_below_nonpos start step stop :
  1 <= step -> stop <= start -> steps_below start step stop <= 0.
Proof.
  intros Hs H. unfold steps_below.
  assert (stop - start + step - 1 < 1 * step) by lia.
  assert ((stop - start + step - 1) / step < 1)
    by (apply Z.div_lt_upper_bound; lia).
  lia.
Qed.

Lemma steps_below_step start step stop :
  1 <= step -> start < stop ->
  steps_below start step stop = 1 + steps_below (start + step) step stop.
Proof.
  intros Hs H. unfold steps_below.
  replace (stop - start + step - 1)
    with (stop - (start + step) + step - 1 + 1 * step) by lia.
  rewrite Z.div_add by lia. lia.
Qed.

Lemma steps_below_pos start step stop :
  1 <= step -> start < stop -> 1 <= steps_below start step stop.
Proof.
  intros Hs H. unfold steps_below.
  apply Z.div_le_lower_bound; lia.
Qed.

(** [start + k * step] is below [stop] exactly for the first
    [steps_below] values of [k]. *)
Lemma steps_below_spec start step stop k :
  1 <= step -> 0 <= k ->
  (start + k * step < stop <-> k < steps_below start step stop).
Proof.
  intros Hs Hk. unfold steps_below. split; intros H.
  - assert (k + 1 <= (stop - start + step - 1) / step)
      by (apply Z.div_le_lower_bound; nia).
    lia.
  - assert (E : (k + 1) * step <= stop - start + step - 1).
    { apply Z.le_trans with
        (step * ((stop - start + step - 1) / step)).
      - nia.
      - apply Z.mul_div_le. lia. }
    nia.
Qed.

Lemma mixed_bound q r n s :
  0 <= q < n -> 0 <= r < s -> 0 <= q * s + r < n * s.
Proof.
  intros Hq Hr.
  assert (0 <= q * s) by (apply Z.mul_nonneg_nonneg; lia).
  assert (q * s <= (n - 1) * s) by (apply Z.mul_le_mono_nonneg_r; lia).
  lia.
Qed.

Lemma mixed_inj q r q' r' s :
  0 <= r < s -> 0 <= r' < s -> q * s + r = q' * s + r' ->
  q = q' /\ r = r'.
Proof.
  intros Hr Hr' E.
  assert (q = q'); [|subst; lia].
  destruct (Z.lt_trichotomy q q') as [L | [L | L]]; [|assumption|].
  - assert ((q + 1) * s <= q' * s) by (apply Z.mul_le_mono_nonneg_r; lia).
    lia.
  - assert ((q' + 1) * s <= q * s) by (apply Z.mul_le_mono_nonneg_r; lia).
    lia.
Qed.

Lemma linear_index_bound a b h i d :
  in_shape a b h i d -> 0 <= linear_index a b h i d < numel a.
Proof.
  unfold in_shape, linear_index, numel, values_stride_0, values_stride_1,
    values_stride_2.
  intros (Hb & Hh & Hi & Hd).
  pose proof (mixed_bound Hi Hd) as H1.
  pose proof (mixed_bound Hh H1) as H2.
  pose proof (mixed_bound Hb H2) as H3.
  replace (b * (Args.heads a * (Args.length a * Args.dim a))
           + h * (Args.length a * Args.dim a) + i * Args.dim a + d)
    with (b * (Args.heads a * (Args.length a * Args.dim a))
          + (h * (Args.length a * Args.dim a) + (i * Args.dim a + d)))
    by ring.
  exact H3.
Qed.

Lemma linear_index_inj a b h i d b' h' i' d' :
  in_shape a b h i d -> in_shape a b' h' i' d' ->
  linear_index a b h i d = linear_index a b' h' i' d' ->
  b = b' /\ h = h' /\ i = i' /\ d = d'.
Proof.
  unfold in_shape, linear_index, values_stride_0, values_stride_1,
    values_stride_2.
  intros (Hb & Hh & Hi & Hd) (Hb' & Hh' & Hi' & Hd') E.
  pose proof (mixed_bound Hi Hd) as H1.
  pose proof (mixed_bound Hi' Hd') as H1'.
  pose proof (mixed_bound Hh H1) as H2.
  pose proof (mixed_bound Hh' H1') as H2'.
  assert (E3 : b * (Args.heads a * (Args.length a * Args.dim a))
               + (h * (Args.length a * Args.dim a) + (i * Args.dim a + d))
             = b' * (Args.heads a * (Args.length a * Args.dim a))
               + (h' * (Args.length a * Args.dim a) + (i' * Args.dim a + d')))
    by lia.
  destruct (mixed_inj _ _ H2 H2' E3) as [-> E2].
  destruct (mixed_inj _ _ H1 H1' E2) as [-> E1].
  destruct (mixed_inj _ _ Hd Hd' E1) as [-> ->].
  auto.
Qed.

(** ** Checked arithmetic *)

Lemma fits_int64b_spec x : fits_int64b x = true <-> fits_int64 x.
Proof.
  unfold fits_int64b, fits_int64.
  rewrite andb_true_iff, !Z.leb_le. tauto.
Qed.

Lemma fits_int32b_spec x : fits_int32b x = true <-> fits_int32 x.
Proof.
  unfold fits_int32b, fits_int32.
  rewrite andb_true_iff, !Z.leb_le. tauto.
Qed.

Lemma int64_fits x : fits_int64 x -> int64 x = Some x.
Proof.
  intros H. unfold int64. apply fits_int64b_spec in H. now rewrite H.
Qed.

Lemma mul64_fits x y : fits_int64 (x * y) -> mul64 x y = Some (x * y).
Proof. apply int64_fits. Qed.

Lemma add64_fits x y :
  fits_int64 (x + y) -> add64 (Some x) (Some y) = Some (x + y).
Proof. apply int64_fits. Qed.

Lemma add32_fits x y : fits_int32 (x + y) -> add32 x y = Some (x + y).
Proof.
  intros H. unfold add32, int32. apply fits_int32b_spec in H. now rewrite H.
Qed.

(** ** Side conditions that can be checked by running them *)

Lemma in_outputb_spec a p : in_outputb a p = true <-> in_output a p.
Proof.
  unfold in_outputb, in_output.
  rewrite andb_true_iff, Z.leb_le, Z.ltb_lt. tauto.
Qed.

Lemma no_aliasb_sound gws gwe a :
  no_aliasb gws gwe a = true -> no_alias gws gwe a.
Proof.
  unfold no_aliasb, no_alias, in_shape.
  intros H b h i d (Hb & Hh & Hi & Hd) p Hp Hout.
  rewrite forallb_forall in H.
  specialize (H b (proj2 (in_zrange _ _ _) Hb)).
  rewrite forallb_forall in H.
  specialize (H h (proj2 (in_zrange _ _ _) Hh)).
  rewrite forallb_forall in H.
  specialize (H i (proj2 (in_zrange _ _ _) Hi)).
  rewrite forallb_forall in H.
  specialize (H d (proj2 (in_zrange _ _ _) Hd)).
  rewrite forallb_forall in H.
  specialize (H p Hp).
  apply in_outputb_spec in Hout. rewrite Hout in H. discriminate.
Qed.

Lemma enough_fuelb_sound gws gwe a fuel :
  enough_fuelb gws gwe a fuel = true -> enough_fuel gws gwe a fuel.
Proof.
  unfold enough_fuelb, enough_fuel. intros H i Hi.
  rewrite forallb_forall in H.
  apply Z.leb_le. apply H. now apply in_zrange.
Qed.

Lemma offsets_fitb_sound a b h i d :
  offsets_fitb a b h i d = true -> offsets_fit a b h i d.
Proof.
  unfold offsets_fitb, offsets_fit. rewrite !andb_true_iff, !fits_int64b_spec.
  tauto.
Qed.

Lemma step_fitsb_sound gws a b h i d k :
  step_fitsb gws a b h i d k = true -> step_fits gws a b h i d k.
Proof.
  unfold step_fitsb, step_fits.
  rewrite !andb_true_iff, !fits_int64b_spec, fits_int32b_spec. tauto.
Qed.

Lemma machine_safeb_sound gws gwe a :
  machine_safeb gws gwe a = true -> machine_safe gws gwe a.
Proof.
  unfold machine_safeb, machine_safe, strides_fit.
  rewrite !andb_true_iff, !fits_int64b_spec.
  intros [[F1 F0] H]. split; [tauto|].
  intros b h i d (Hb & Hh & Hi & Hd).
  rewrite forallb_forall in H.
  specialize (H b (proj2 (in_zrange _ _ _) Hb)).
  rewrite forallb_forall in H.
  specialize (H h (proj2 (in_zrange _ _ _) Hh)).
  rewrite forallb_forall in H.
  specialize (H i (proj2 (in_zrange _ _ _) Hi)).
  rewrite forallb_forall in H.
  specialize (H d (proj2 (in_zrange _ _ _) Hd)).
  apply andb_true_iff in H. destruct H as [Ho Hk].
  split; [now apply offsets_fitb_sound|].
  intros k Hk'. rewrite forallb_forall in Hk.
  apply step_fitsb_sound. apply Hk. now apply in_zrange.
Qed.

(** ** Schedulers *)

Lemma fair_sequential : fair sequential.
Proof.
  intros call b e g. unfold sequential, chunk_indices. simpl.
  rewrite app_nil_r. apply Permutation_refl.
Qed.

(** Under a fair scheduler every head is in exactly one chunk. *)
Lemma fair_NoDup sched call begin end_ grain_size :
  fair sched -> NoDup (chunk_indices (sched call begin end_ grain_size)).
Proof.
  intros F. apply (Permutation_NoDup (Permutation_sym (F _ _ _ _))).
  apply NoDup_zrange.
Qed.

Lemma zrange_app lo mid hi :
  lo <= mid <= hi -> zrange lo mid ++ zrange mid hi = zrange lo hi.
Proof.
  intros H. unfold zrange.
  replace (Z.to_nat (hi - lo))
    with (Z.to_nat (mid - lo) + Z.to_nat (hi - mid))%nat by lia.
  rewrite seq_app, map_app. f_equal. simpl.
  generalize (Z.to_nat (hi - mid)) as n.
  assert (G : forall n s, map (fun k => lo + Z.of_nat k) (seq s n)
              = map (fun k => lo + Z.of_nat s + Z.of_nat k) (seq 0 n)).
  { induction n as [|n IH]; intros s0; simpl; [reflexivity|].
    f_equal; [lia|]. rewrite IH, <- seq_shift, map_map.
    apply map_ext. intros k. lia. }
  intros n. rewrite G.
  apply map_ext. intros k. lia.
Qed.

Lemma fair_two_threads : fair Example.two_threads.
Proof.
  intros call b e g. unfold Example.two_threads, chunk_indices. simpl.
  rewrite app_nil_r.
  destruct (Z.le_gt_cases b e) as [L | G].
  - assert (0 <= (e - b) / 2 <= e - b).
    { split; [apply Z.div_pos; lia|]. apply Z.div_le_upper_bound; lia. }
    rewrite <- (@zrange_app b (b + (e - b) / 2) e) by lia.
    apply Permutation_app_comm.
  - assert ((e - b) / 2 < 0) by (apply Z.div_lt_upper_bound; lia).
    assert (e - b <= (e - b) / 2) by (apply Z.div_le_lower_bound; lia).
    rewrite !zrange_nil by lia. constructor.
Qed.

(** ** Lists without repetition *)

Lemma NoDup_flat_map (X Y : Type) (f : X -> list Y) l :
  NoDup l ->
  (forall x, In x l -> NoDup (f x)) ->
  (forall x x' y, In x l -> In x' l -> In y (f x) -> In y (f x') -> x = x') ->
  NoDup (flat_map f l).
Proof.
  induction l as [|x l IH]; intros Hl Hf Hd; simpl; [constructor|].
  inversion Hl as [|? ? Hx Hl']; subst.
  apply NoDup_app.
  - apply Hf. left; reflexivity.
  - apply IH; [assumption | intros; apply Hf; right; assumption |].
    intros x1 x2 y H1 H2. apply Hd; right; assumption.
  - intros y Hy Hy'. apply in_flat_map in Hy'. destruct Hy' as (x' & Hx' & Hy').
    assert (x = x') by (apply (Hd x x' y); simpl; auto).
    subst. contradiction.
Qed.

Lemma NoDup_map_on (X Y : Type) (f : X -> Y) l :
  (forall x x', In x l -> In x' l -> f x = f x' -> x = x') ->
  NoDup l -> NoDup (map f l).
Proof.
  intros H. apply NoDup_map_NoDup_ForallPairs. intros x y Hx Hy. auto.
Qed.

Lemma NoDup_head_jobs a b h : NoDup (head_jobs a b h).
Proof.
  unfold head_jobs. apply NoDup_flat_map.
  - apply NoDup_zrange.
  - intros i _. apply NoDup_map_on; [|apply NoDup_zrange].
    intros d d' _ _ E. now inversion E.
  - intros i i' c _ _ Hc Hc'.
    apply in_map_iff in Hc, Hc'.
    destruct Hc as (d & <- & _). destruct Hc' as (d' & E & _).
    now inversion E.
Qed.

Lemma NoDup_jobs sched a : fair sched -> NoDup (jobs sched a).
Proof.
  intros F. unfold jobs. apply NoDup_flat_map.
  - apply NoDup_zrange.
  - intros b _. apply NoDup_flat_map.
    + now apply fair_NoDup.
    + intros h _. apply NoDup_head_jobs.
    + intros h h' c _ _ Hc Hc'.
      unfold head_jobs in Hc, Hc'.
      apply in_flat_map in Hc, Hc'.
      destruct Hc as (i & _ & Hc). destruct Hc' as (i' & _ & Hc').
      apply in_map_iff in Hc, Hc'.
      destruct Hc as (d & <- & _). destruct Hc' as (d' & E & _).
      now inversion E.
  - intros b b' c _ _ Hc Hc'.
    apply in_flat_map in Hc, Hc'.
    destruct Hc as (h & _ & Hc). destruct Hc' as (h' & _ & Hc').
    unfold head_jobs in Hc, Hc'.
    apply in_flat_map in Hc, Hc'.
    destruct Hc as (i & _ & Hc). destruct Hc' as (i' & _ & Hc').
    apply in_map_iff in Hc, Hc'.
    destruct Hc as (d & <- & _). destruct Hc' as (d' & E & _).
    now inversion E.
Qed.

Lemma in_head_jobs a b h c :
  In c (head_jobs a b h) <->
  cb c = b /\ ch c = h /\ 0 <= ci c < Args.length a /\ 0 <= cd c < Args.dim a.
Proof.
  unfold head_jobs. rewrite in_flat_map. split.
  - intros (i & Hi & Hc). apply in_map_iff in Hc. destruct Hc as (d & <- & Hd).
    apply in_zrange in Hi, Hd. simpl. auto.
  - intros (Eb & Eh & Hi & Hd). exists (ci c). split; [now apply in_zrange|].
    apply in_map_iff. exists (cd c). split; [|now apply in_zrange].
    destruct c; simpl in *; now subst.
Qed.

Lemma in_jobs sched a c :
  fair sched ->
  (In c (jobs sched a) <-> in_shape a (cb c) (ch c) (ci c) (cd c)).
Proof.
  intros F. unfold jobs, in_shape. rewrite in_flat_map. split.
  - intros (b & Hb & Hc). apply in_flat_map in Hc. destruct Hc as (h & Hh & Hc).
    apply in_head_jobs in Hc. destruct Hc as (<- & <- & Hi & Hd).
    apply in_zrange in Hb.
    apply (Permutation_in _ (F _ _ _ _)), in_zrange in Hh. auto.
  - intros (Hb & Hh & Hi & Hd). exists (cb c). split; [now apply in_zrange|].
    apply in_flat_map. exists (ch c). split.
    + apply (Permutation_in _ (Permutation_sym (F _ _ _ _))).
      now apply in_zrange.
    + apply in_head_jobs. auto.
Qed.

(** The output offsets written during a run, in the order of the run, do
    not repeat. *)
Lemma NoDup_written sched a :
  fair sched ->
  NoDup (map (fun c => linear_index a (cb c) (ch c) (ci c) (cd c))
             (jobs sched a)).
Proof.
  intros F. apply NoDup_map_on; [|now apply NoDup_jobs].
  intros c c' Hc Hc' E.
  apply (in_jobs a _ F) in Hc, Hc'.
  destruct (linear_index_inj Hc Hc' E) as (Eb & Eh & Ei & Ed).
  destruct c, c'; simpl in *; now subst.
Qed.


Lemma linear_index_surj a k :
  1 <= Args.heads a -> 1 <= Args.length a -> 1 <= Args.dim a ->
  0 <= k < numel a ->
  exists b h i d, in_shape a b h i d /\ linear_index a b h i d = k.
Proof.
  intros HH HL HD Hk. unfold numel in Hk.
  set (D := Args.dim a) in *. set (L := Args.length a) in *.
  set (H := Args.heads a) in *. set (B := Args.batch_size a) in *.
  pose proof (Z.div_mod k D ltac:(lia)) as E1.
  pose proof (Z.mod_pos_bound k D ltac:(lia)) as B1.
  remember (k / D) as q1 eqn:Q1. remember (k mod D) as d eqn:Q1'.
  pose proof (Z.div_mod q1 L ltac:(lia)) as E2.
  pose proof (Z.mod_pos_bound q1 L ltac:(lia)) as B2.
  remember (q1 / L) as q2 eqn:Q2. remember (q1 mod L) as i eqn:Q2'.
  pose proof (Z.div_mod q2 H ltac:(lia)) as E3.
  pose proof (Z.mod_pos_bound q2 H ltac:(lia)) as B3.
  remember (q2 / H) as b eqn:Q3. remember (q2 mod H) as h eqn:Q3'.
  assert (N1 : 0 <= q1 < B * (H * L)).
  { subst q1. split; [apply Z.div_pos; lia|].
    apply Z.div_lt_upper_bound; [lia|].
    replace (D * (B * (H * L))) with (B * (H * (L * D))) by ring. lia. }
  assert (N2 : 0 <= q2 < B * H).
  { subst q2. split; [apply Z.div_pos; lia|].
    apply Z.div_lt_upper_bound; [lia|].
    replace (L * (B * H)) with (B * (H * L)) by ring. lia. }
  assert (N3 : 0 <= b < B).
  { subst b. split; [apply Z.div_pos; lia|].
    apply Z.div_lt_upper_bound; [lia|].
    replace (H * B) with (B * H) by ring. lia. }
  exists b, h, i, d. split.
  - unfold in_shape. fold B H L D. lia.
  - unfold linear_index, values_stride_0, values_stride_1, values_stride_2.
    fold H L D. rewrite E1, E2, E3. ring.
Qed.

(** For a validated shape the offsets of the elements of the iteration
    space are the offsets [0, ..., numel - 1], each once. *)
Lemma written_permutation sched a :
  validated a -> fair sched ->
  Permutation
    (map (fun c => linear_index a (cb c) (ch c) (ci c) (cd c)) (jobs sched a))
    (zrange 0 (numel a)).
Proof.
  intros V F. apply NoDup_Permutation.
  - now apply NoDup_written.
  - apply NoDup_zrange.
  - intros k. rewrite in_zrange, in_map_iff. split.
    + intros (c & <- & Hc). apply (in_jobs a _ F) in Hc.
      now apply linear_index_bound.
    + intros Hk. unfold validated in V.
      destruct (@linear_index_surj a k) as (b & h & i & d & Hs & E);
        try tauto.
      exists (Coord b h i d). split; [exact E|].
      apply (in_jobs a _ F). exact Hs.
Qed.

(** ** The loop nest and its iteration space *)

Section KernelFacts.

Variable scalar : Type.
Variable szero : scalar.
Variable sadd smul : scalar -> scalar -> scalar.
Variable get_window_start : Z -> Z -> Z -> Z -> Z -> bool -> Z.
Variable get_window_end : Z -> Z -> Z -> Z -> Z -> Z -> bool -> Z.

Local Abbreviation launch' :=
  (launch szero sadd smul get_window_start get_window_end).
Local Abbreviation launch_traced' :=
  (launch_traced szero sadd smul get_window_start get_window_end).
Local Abbreviation element_step' :=
  (element_step szero sadd smul get_window_start get_window_end).
Local Abbreviation window_start' := (window_start get_window_start).
Local Abbreviation window_end' := (window_end get_window_start get_window_end).
Local Abbreviation num_neighbors' :=
  (num_neighbors get_window_start get_window_end).
Local Abbreviation neighbor' := (neighbor get_window_start).
Local Abbreviation aggregate' :=
  (aggregate szero sadd smul get_window_start get_window_end).
Local Abbreviation reads' := (reads get_window_start get_window_end).
Local Abbreviation no_alias' := (no_alias get_window_start get_window_end).
Local Abbreviation enough_fuel' := (enough_fuel get_window_start get_window_end).
Local Abbreviation machine_safe' :=
  (machine_safe get_window_start get_window_end).
Local Abbreviation step_fits' := (step_fits get_window_start).

(** When the two strides fit, [launch] runs [element_step] over [jobs], in
    that order. *)
Lemma launch_traced_as_jobs sched fuel a (s : state scalar) :
  strides_fit a ->
  launch_traced' sched fuel a s
  = fold_opt (element_step' fuel a) (jobs sched a) s.
Proof.
  intros [F1 F0].
  unfold values_stride_0, values_stride_1, values_stride_2 in F1, F0.
  unfold launch_traced. rewrite (mul64_fits _ _ F1). cbn [obind].
  rewrite (mul64_fits _ _ F0). cbn [obind].
  unfold jobs, parallel_for, chunk_indices.
  rewrite for_range_fold, <- fold_opt_flat_map.
  apply fold_opt_ext; intros b s1 _.
  rewrite <- 2 fold_opt_flat_map.
  apply fold_opt_ext; intros c s2 _.
  rewrite for_range_fold.
  apply fold_opt_ext; intros h s3 _.
  unfold head_jobs. rewrite for_range_fold, <- fold_opt_flat_map.
  apply fold_opt_ext; intros i s4 _.
  rewrite for_range_fold, fold_opt_map.
  apply fold_opt_ext; intros d s5 _.
  reflexivity.
Qed.

(** When a stride does not fit, the call has no result. *)
Lemma launch_traced_strides sched fuel a (s s' : state scalar) :
  launch_traced' sched fuel a s = Some s' -> strides_fit a.
Proof.
  unfold launch_traced, strides_fit, values_stride_0, values_stride_1,
    values_stride_2, mul64, int64.
  destruct (fits_int64b (Args.length a * Args.dim a)) eqn:E1;
    [|discriminate].
  cbn [obind].
  destruct (fits_int64b (Args.heads a * (Args.length a * Args.dim a))) eqn:E0;
    [|discriminate].
  intros _. split; now apply fits_int64b_spec.
Qed.

(** *** The innermost loop is the sum over the window *)

Lemma window_loop_sum fuel (m : mem scalar) w v ei D vs2 voff :
  1 <= D ->
  forall xi attn acc,
  steps_below xi D ei <= Z.of_nat fuel ->
  (forall k, 0 <= k < steps_below xi D ei ->
     fits_int64 ((xi + k * D) * vs2)
     /\ fits_int64 (voff + (xi + k * D) * vs2)
     /\ fits_int64 (attn + k + 1)
     /\ fits_int32 (xi + k * D + D)) ->
  window_loop sadd smul fuel m w v ei D vs2 voff xi attn acc
  = Some (fold_left sadd
            (map (fun k => smul (m (w + (attn + k)))
                                (m (v + (voff + (xi + k * D) * vs2))))
                 (zrange 0 (steps_below xi D ei)))
            acc).
Proof.
  intros HD. induction fuel as [|fuel IH]; intros xi attn acc Hf Hs.
  - simpl. destruct (xi <? ei) eqn:E.
    + apply Z.ltb_lt in E. pose proof (steps_below_pos HD E). lia.
    + apply Z.ltb_ge in E.
      rewrite zrange_nil by (apply steps_below_nonpos; lia). reflexivity.
  - cbn [window_loop]. destruct (xi <? ei) eqn:E.
    + apply Z.ltb_lt in E.
      pose proof (steps_below_pos HD E) as P1.
      pose proof (steps_below_step HD E) as P2.
      destruct (Hs 0 ltac:(lia)) as (S1 & S2 & S3 & S4).
      replace (xi + 0 * D) with xi in S1, S2, S4 by lia.
      replace (attn + 0 + 1) with (attn + 1) in S3 by lia.
      rewrite (mul64_fits _ _ S1), (add64_fits _ _ S2). cbn [obind].
      rewrite (add64_fits _ _ S3). cbn [obind].
      rewrite (add32_fits _ _ S4). cbn [obind].
      rewrite IH.
      * rewrite P2.
        rewrite (@zrange_cons 0 (1 + steps_below (xi + D) D ei)) by lia.
        replace (1 + steps_below (xi + D) D ei)
          with (steps_below (xi + D) D ei + 1) by lia.
        rewrite (zrange_shift 0 (steps_below (xi + D) D ei) 1).
        simpl. rewrite map_map, !Z.add_0_r. do 2 f_equal.
        apply map_ext. intros k.
        replace (attn + 1 + k) with (attn + (k + 1)) by lia.
        replace (xi + D + k * D) with (xi + (k + 1) * D) by ring.
        reflexivity.
      * lia.
      * intros k Hk. destruct (Hs (k + 1) ltac:(lia)) as (T1 & T2 & T3 & T4).
        replace (xi + D + k * D) with (xi + (k + 1) * D) by ring.
        replace (attn + 1 + k + 1) with (attn + (k + 1) + 1) by lia.
        auto.
    + apply Z.ltb_ge in E.
      rewrite zrange_nil by (apply steps_below_nonpos; lia). reflexivity.
Qed.

(** With enough fuel, and no operation leaving its type, the window loop
    of element [(b, h, i, d)] returns the aggregate. *)
Lemma window_loop_aggregate fuel a (m : mem scalar) b h i d :
  1 <= Args.dilation a ->
  num_neighbors' a i <= Z.of_nat fuel ->
  (forall k, 0 <= k < num_neighbors' a i -> step_fits' a b h i d k) ->
  window_loop sadd smul fuel m (Args.weights a) (Args.values a)
    (window_end' a i) (Args.dilation a) (values_stride_2 a)
    (b * values_stride_0 a + h * values_stride_1 a + d)
    (window_start' a i) (attn_offset a b h i) szero
  = Some (aggregate' a m b h i d).
Proof.
  intros HD Hf Hs.
  rewrite window_loop_sum; [| assumption | assumption |].
  - f_equal. unfold aggregate, ssum. f_equal. apply map_ext. intros k.
    unfold weights_at, values_at, neighbor, linear_index.
    f_equal. f_equal. f_equal. ring.
  - intros k Hk. destruct (Hs k Hk) as (S1 & S2 & S3 & S4).
    unfold neighbor in S1, S2, S4. auto.
Qed.

(** The body of the [d] loop stores the aggregate and records the
    offset. *)
Lemma element_step_aggregate fuel a (m : mem scalar) log b h i d :
  1 <= Args.dilation a ->
  num_neighbors' a i <= Z.of_nat fuel ->
  offsets_fit a b h i d ->
  (forall k, 0 <= k < num_neighbors' a i -> step_fits' a b h i d k) ->
  element_step' fuel a (Coord b h i d) (m, log)
  = Some (store m (Args.output a) (linear_index a b h i d)
                (aggregate' a m b h i d),
          log ++ [linear_index a b h i d]).
Proof.
  intros HD Hf
    (W0 & W1 & W01 & W2 & WA & V0 & V1 & V01 & VO & L2 & L012 & LI) Hs.
  unfold element_step. simpl cb; simpl ch; simpl ci; simpl cd; simpl fst;
    simpl snd.
  rewrite (mul64_fits _ _ W0), (mul64_fits _ _ W1), (add64_fits _ _ W01),
    (mul64_fits _ _ W2).
  unfold attn_offset in WA. rewrite (add64_fits _ _ WA). cbn [obind].
  rewrite (mul64_fits _ _ V0), (mul64_fits _ _ V1), (add64_fits _ _ V01),
    (add64_fits _ _ VO). cbn [obind].
  fold (attn_offset a b h i).
  rewrite window_loop_aggregate by assumption. cbn [obind].
  rewrite (mul64_fits _ _ L2), (add64_fits _ _ L012).
  unfold linear_index in LI. rewrite (add64_fits _ _ LI). cbn [obind].
  reflexivity.
Qed.

(** The aggregate looks at the memory only at the addresses of [reads]. *)
Lemma aggregate_reads a (m1 m2 : mem scalar) b h i d :
  (forall p, In p (reads' a b h i d) -> m1 p = m2 p) ->
  aggregate' a m1 b h i d = aggregate' a m2 b h i d.
Proof.
  intros H. unfold aggregate. f_equal. apply map_ext_in. intros k Hk.
  unfold weights_at, values_at.
  rewrite 2 H; [reflexivity | |];
    unfold reads; apply in_flat_map; exists k; simpl; auto.
Qed.

(** *** Writes that do not feed later reads

    A sequence of jobs, each of which computes a value from the memory,
    stores it at its own address and records its offset.  When every
    address written lies in a region that no job reads, each job computes
    what it would have computed on the initial memory, the final memory
    holds at every written address the value of a job writing there, and
    the record lists the offsets of the jobs in their order. *)

Lemma independent_writes (J : Type) (addr off : J -> Z)
  (step : J -> state scalar -> option (state scalar)) (R : Z -> Prop)
  (v0 : J -> scalar) (m0 : mem scalar) (js : list J) :
  (forall j, In j js -> R (addr j)) ->
  (forall j m log, In j js -> (forall p, ~ R p -> m p = m0 p) ->
     step j (m, log)
     = Some (fun p => if p =? addr j then v0 j else m p, log ++ [off j])) ->
  (forall j j', In j js -> In j' js -> addr j = addr j' -> v0 j = v0 j') ->
  forall m log, (forall p, ~ R p -> m p = m0 p) ->
  exists m',
    fold_opt step js (m, log) = Some (m', log ++ map off js)
    /\ (forall p, ~ In p (map addr js) -> m' p = m p)
    /\ (forall j, In j js -> m' (addr j) = v0 j).
Proof.
  induction js as [|j js IH]; intros HR Hstep Hsame m log Hm.
  - exists m. simpl. rewrite app_nil_r. repeat split; auto. intros j [].
  - simpl. rewrite (Hstep j m log (or_introl eq_refl) Hm). simpl.
    set (m1 := fun p => if p =? addr j then v0 j else m p).
    assert (Hm1 : forall p, ~ R p -> m1 p = m0 p).
    { intros p Hp. unfold m1.
      destruct (p =? addr j) eqn:E; [|auto].
      apply Z.eqb_eq in E. exfalso. apply Hp.
      replace p with (addr j) by lia. apply HR. left; reflexivity. }
    destruct (IH (fun j' H' => HR j' (or_intror H'))
                 (fun j' m' l' H' => Hstep j' m' l' (or_intror H'))
                 (fun j1 j2 H1 H2 => Hsame j1 j2 (or_intror H1) (or_intror H2))
                 m1 (log ++ [off j]) Hm1) as (m' & Hrun & Hframe & Hvals).
    exists m'. split; [|split].
    + rewrite Hrun, <- app_assoc. reflexivity.
    + intros p Hp. rewrite Hframe by (intros F; apply Hp; right; exact F).
      unfold m1. destruct (p =? addr j) eqn:E; [|reflexivity].
      apply Z.eqb_eq in E. exfalso. apply Hp. left. lia.
    + intros j' [<- | Hj'].
      * destruct (in_dec Z.eq_dec (addr j) (map addr js)) as [I | N].
        -- apply in_map_iff in I. destruct I as (j2 & E2 & I2).
           rewrite <- E2, (Hvals j2 I2).
           symmetry. apply Hsame; [left; reflexivity | right; exact I2 | auto].
        -- rewrite (Hframe _ N). unfold m1.
           now rewrite Z.eqb_refl.
      * apply Hvals; exact Hj'.
Qed.

(** *** What [launch] leaves in the memory *)

(** The characterisation everything else rests on.  Let the output
    elements be computed one after the other in any order, each at least
    once: with a positive dilation, no operation leaving its type, fuel for
    the longest window and an output tensor that overlaps nothing the
    kernel reads, the run returns, every output element holds the aggregate
    computed on the initial memory, every other cell is as it was, and the
    offsets stored to are those of the elements, in the order of the
    run. *)
Lemma elements_characterised js fuel a (m : mem scalar) log :
  (forall c, In c js <-> in_shape a (cb c) (ch c) (ci c) (cd c)) ->
  1 <= Args.dilation a -> machine_safe' a -> no_alias' a ->
  enough_fuel' a fuel ->
  exists m',
    fold_opt (element_step' fuel a) js (m, log)
    = Some (m', log ++ map (fun c => linear_index a (cb c) (ch c) (ci c)
                                       (cd c)) js)
    /\ (forall b h i d, in_shape a b h i d ->
          output_at a m' b h i d = aggregate' a m b h i d)
    /\ (forall p, (forall b h i d, in_shape a b h i d ->
                     p <> Args.output a + linear_index a b h i d) ->
          m' p = m p).
Proof.
  intros J HD [_ MS] NA EF.
  destruct (@independent_writes coord
    (fun c => Args.output a + linear_index a (cb c) (ch c) (ci c) (cd c))
    (fun c => linear_index a (cb c) (ch c) (ci c) (cd c))
    (element_step' fuel a)
    (in_output a)
    (fun c => aggregate' a m (cb c) (ch c) (ci c) (cd c))
    m js) with (m := m) (log := log) as (m' & Hrun & Hframe & Hvals).
  - intros c Hc. apply J in Hc.
    pose proof (linear_index_bound Hc). unfold in_output. lia.
  - intros c m1 l1 Hc Hm1. apply J in Hc.
    destruct (MS _ _ _ _ Hc) as [OF SF].
    destruct c as [b h i d]. simpl in *.
    rewrite element_step_aggregate;
      [| assumption | apply EF; unfold in_shape in Hc; tauto
       | assumption | assumption].
    unfold store. do 2 f_equal.
    assert (E : aggregate' a m1 b h i d = aggregate' a m b h i d).
    { apply aggregate_reads. intros p Hp.
      apply Hm1. exact (NA _ _ _ _ Hc p Hp). }
    now rewrite E.
  - intros c c' Hc Hc' E.
    apply J in Hc, Hc'.
    assert (E' : linear_index a (cb c) (ch c) (ci c) (cd c)
                 = linear_index a (cb c') (ch c') (ci c') (cd c')) by lia.
    destruct (linear_index_inj Hc Hc' E') as (-> & -> & -> & ->).
    reflexivity.
  - auto.
  - exists m'. split; [exact Hrun|]. split.
    + intros b h i d Hs. unfold output_at.
      apply (Hvals (Coord b h i d)). apply J. exact Hs.
    + intros p Hp. apply Hframe. rewrite in_map_iff.
      intros (c & Ec & Hc). apply J in Hc.
      apply (Hp _ _ _ _ Hc). auto.
Qed.

(** Whatever the memory holds, and whether or not the output overlaps the
    inputs, every body of the [d] loop returns and records its offset. *)
Lemma elements_run js fuel a (s : state scalar) :
  (forall c, In c js -> in_shape a (cb c) (ch c) (ci c) (cd c)) ->
  1 <= Args.dilation a -> machine_safe' a -> enough_fuel' a fuel ->
  exists m',
    fold_opt (element_step' fuel a) js s
    = Some (m', snd s ++ map (fun c => linear_index a (cb c) (ch c) (ci c)
                                         (cd c)) js).
Proof.
  intros J HD [_ MS] EF. revert s.
  induction js as [|c js IH]; intros [m log].
  - exists m. simpl. now rewrite app_nil_r.
  - pose proof (J c (or_introl eq_refl)) as Hc.
    destruct (MS _ _ _ _ Hc) as [OF SF].
    destruct c as [b h i d]. simpl in Hc, OF, SF.
    simpl fold_opt.
    rewrite element_step_aggregate;
      [| assumption | apply EF; unfold in_shape in Hc; tauto
       | assumption | assumption].
    cbn [obind].
    destruct (IH (fun c' H' => J c' (or_intror H'))
                 (store m (Args.output a) (linear_index a b h i d)
                        (aggregate' a m b h i d),
                  log ++ [linear_index a b h i d])) as (m' & Hrun).
    exists m'. rewrite Hrun. simpl. now rewrite <- app_assoc.
Qed.

Lemma launch_traced_characterised sched fuel a (m : mem scalar) :
  fair sched -> 1 <= Args.dilation a -> machine_safe' a -> no_alias' a ->
  enough_fuel' a fuel ->
  exists m',
    launch_traced' sched fuel a (m, [])
    = Some (m', map (fun c => linear_index a (cb c) (ch c) (ci c) (cd c))
                    (jobs sched a))
    /\ (forall b h i d, in_shape a b h i d ->
          output_at a m' b h i d = aggregate' a m b h i d)
    /\ (forall p, (forall b h i d, in_shape a b h i d ->
                     p <> Args.output a + linear_index a b h i d) ->
          m' p = m p).
Proof.
  intros F HD MS NA EF. rewrite launch_traced_as_jobs by apply MS.
  apply (@elements_characterised (jobs sched a) fuel a m []); auto.
  intros c. now apply in_jobs.
Qed.

Lemma launch_characterised sched fuel a (m : mem scalar) :
  fair sched -> 1 <= Args.dilation a -> machine_safe' a -> no_alias' a ->
  enough_fuel' a fuel ->
  exists m',
    launch' sched fuel a m = Some m'
    /\ (forall b h i d, in_shape a b h i d ->
          output_at a m' b h i d = aggregate' a m b h i d)
    /\ (forall p, (forall b h i d, in_shape a b h i d ->
                     p <> Args.output a + linear_index a b h i d) ->
          m' p = m p).
Proof.
  intros F HD MS NA EF.
  destruct (launch_traced_characterised m F HD MS NA EF)
    as (m' & Hrun & Hout & Hfr).
  exists m'. unfold launch. rewrite Hrun. simpl. auto.
Qed.

(** C1: for every validated input (sizes at least 1, odd kernel size,
    dilation at least 1) on which no integer operation of the call leaves
    its type, run under any fair scheduler with fuel for the longest window
    and an output tensor that overlaps no input, [launch] returns and has
    written to every output element [(b, h, i, d)] the sum over [k] of
    [weights[b,h,i,k] * values[b,h,neighbor(i,k),d]]; the neighbors are
    [window_start(i) + k * dilation] for exactly those [k >= 0] that keep
    them below [window_end(i)], and the [k]-th neighbor is multiplied with
    the [k]-th consecutive weight of the query row, starting at index 0. *)
Theorem launch_aggregate_pattern sched fuel a (m : mem scalar) :
  validated a -> machine_safe' a -> fair sched -> no_alias' a ->
  enough_fuel' a fuel ->
  exists m',
    launch' sched fuel a m = Some m'
    /\ (forall b h i d, in_shape a b h i d ->
          output_at a m' b h i d
          = ssum szero sadd
              (map (fun k => smul (weights_at a m b h i k)
                                  (values_at a m b h (neighbor' a i k) d))
                   (zrange 0 (num_neighbors' a i))))
    /\ (forall i k, 0 <= k ->
          (k < num_neighbors' a i <->
           window_start' a i + k * Args.dilation a < window_end' a i))
    /\ (forall i k, neighbor' a i k = window_start' a i + k * Args.dilation a).
Proof.
  intros V MS F NA EF.
  assert (HD : 1 <= Args.dilation a) by (unfold validated in V; tauto).
  destruct (launch_characterised m F HD MS NA EF) as (m' & Hrun & Hout & _).
  exists m'. split; [exact Hrun|]. split; [exact Hout|]. split.
  - intros i k Hk. unfold num_neighbors.
    symmetry. now apply steps_below_spec.
  - reflexivity.
Qed.

(** Two memories that hold the same values on the output elements and
    agree with a third one elsewhere are the same memory. *)
Lemma characterised_unique a (m m1 m2 : mem scalar)
  (v : Z -> Z -> Z -> Z -> scalar) :
  (forall b h i d, in_shape a b h i d -> output_at a m1 b h i d = v b h i d) ->
  (forall p, (forall b h i d, in_shape a b h i d ->
                p <> Args.output a + linear_index a b h i d) -> m1 p = m p) ->
  (forall b h i d, in_shape a b h i d -> output_at a m2 b h i d = v b h i d) ->
  (forall p, (forall b h i d, in_shape a b h i d ->
                p <> Args.output a + linear_index a b h i d) -> m2 p = m p) ->
  forall p, m1 p = m2 p.
Proof.
  intros V1 F1 V2 F2 p.
  destruct (in_dec Z.eq_dec p
    (map (fun c => Args.output a + linear_index a (cb c) (ch c) (ci c) (cd c))
         (jobs sequential a))) as [I | N].
  - apply in_map_iff in I. destruct I as (c & <- & Hc).
    apply (in_jobs a _ fair_sequential) in Hc.
    specialize (V1 _ _ _ _ Hc). specialize (V2 _ _ _ _ Hc).
    unfold output_at in V1, V2. congruence.
  - assert (G : forall b h i d, in_shape a b h i d ->
                p <> Args.output a + linear_index a b h i d).
    { intros b h i d Hs E. apply N. apply in_map_iff.
      exists (Coord b h i d). split; [auto|].
      apply (in_jobs a _ fair_sequential). exact Hs. }
    rewrite (F1 p G), (F2 p G). reflexivity.
Qed.

(** C9: for every validated input on which no integer operation leaves its
    type, distinct output elements [(b, h, i, d)] have distinct output
    offsets; under any fair scheduler (any partition of the heads into
    chunks, run in any order) the call returns, the offsets it has stored
    to are the offsets [0 .. numel - 1] of the output tensor, none of them
    twice, so that every output element is written exactly once, by the one
    task whose chunk holds its head; every output element holds the
    aggregate of the memory the call received; and the memory after the
    call is the same for any two fair schedulers. *)
Theorem launch_schedule_independent s1 s2 fuel a (m : mem scalar) :
  validated a -> machine_safe' a -> fair s1 -> fair s2 -> no_alias' a ->
  enough_fuel' a fuel ->
  (forall b h i d b' h' i' d',
      in_shape a b h i d -> in_shape a b' h' i' d' ->
      (b, h, i, d) <> (b', h', i', d') ->
      linear_index a b h i d <> linear_index a b' h' i' d')
  /\ (forall b, 0 <= b < Args.batch_size a ->
        NoDup (chunk_indices (s1 b 0 (Args.heads a) GRAIN_SIZE)))
  /\ exists m1 log1 m2 log2,
       launch_traced' s1 fuel a (m, []) = Some (m1, log1)
       /\ launch_traced' s2 fuel a (m, []) = Some (m2, log2)
       /\ NoDup log1 /\ Permutation log1 (zrange 0 (numel a))
       /\ NoDup log2 /\ Permutation log2 (zrange 0 (numel a))
       /\ (forall b h i d, in_shape a b h i d ->
             output_at a m1 b h i d = aggregate' a m b h i d
             /\ output_at a m2 b h i d = aggregate' a m b h i d)
       /\ forall p, m1 p = m2 p.
Proof.
  intros V MS F1 F2 NA EF.
  assert (HD : 1 <= Args.dilation a) by (unfold validated in V; tauto).
  split; [|split].
  - intros b h i d b' h' i' d' Hs Hs' Hne E. apply Hne.
    destruct (linear_index_inj Hs Hs' E) as (-> & -> & -> & ->). reflexivity.
  - intros b _. now apply fair_NoDup.
  - destruct (launch_traced_characterised m F1 HD MS NA EF)
      as (m1 & R1 & V1 & Fr1).
    destruct (launch_traced_characterised m F2 HD MS NA EF)
      as (m2 & R2 & V2 & Fr2).
    exists m1. eexists. exists m2. eexists.
    split; [exact R1|]. split; [exact R2|].
    split; [now apply NoDup_written|].
    split; [now apply written_permutation|].
    split; [now apply NoDup_written|].
    split; [now apply written_permutation|].
    split; [intros b h i d Hs; split; auto|].
    eapply characterised_unique; [exact V1 | exact Fr1 | exact V2 | exact Fr2].
Qed.

(** C10: on validated input on which no integer operation leaves its type,
    a call changes the memory only inside the output tensor: every cell
    outside the output region, and so every cell of weights and values the
    kernel reads, holds after the call what it held before; and nothing is
    carried from one call to the next: a second call with the same
    arguments, under any fair scheduler, leaves the output as the first
    call left it. *)
Theorem launch_frame s1 s2 fuel a (m : mem scalar) :
  validated a -> machine_safe' a -> fair s1 -> fair s2 -> no_alias' a ->
  enough_fuel' a fuel ->
  exists m1,
    launch' s1 fuel a m = Some m1
    /\ (forall p, ~ in_output a p -> m1 p = m p)
    /\ (forall b h i d, in_shape a b h i d ->
          forall p, In p (reads' a b h i d) -> m1 p = m p)
    /\ exists m2,
         launch' s2 fuel a m1 = Some m2 /\ forall p, m2 p = m1 p.
Proof.
  intros V MS F1 F2 NA EF.
  assert (HD : 1 <= Args.dilation a) by (unfold validated in V; tauto).
  destruct (launch_characterised m F1 HD MS NA EF) as (m1 & R1 & V1 & Fr1).
  assert (Frame : forall p, ~ in_output a p -> m1 p = m p).
  { intros p Hp. apply Fr1. intros b h i d Hs E. apply Hp.
    pose proof (linear_index_bound Hs). unfold in_output. lia. }
  assert (Inputs : forall b h i d, in_shape a b h i d ->
            forall p, In p (reads' a b h i d) -> m1 p = m p).
  { intros b h i d Hs p Hp. apply Frame. exact (NA _ _ _ _ Hs p Hp). }
  exists m1. split; [exact R1|]. split; [exact Frame|]. split; [exact Inputs|].
  destruct (launch_characterised m1 F2 HD MS NA EF) as (m2 & R2 & V2 & Fr2).
  exists m2. split; [exact R2|].
  apply characterised_unique
    with (a := a) (m := m1) (v := fun b h i d => aggregate' a m b h i d).
  - intros b h i d Hs. rewrite (V2 _ _ _ _ Hs).
    apply aggregate_reads. exact (Inputs _ _ _ _ Hs).
  - exact Fr2.
  - exact V1.
  - intros p _. reflexivity.
Qed.

(** X7: the tasks may interleave at the grain of one output element: on
    validated input on which no integer operation leaves its type, run the
    bodies of the [d] loop in any order that is a rearrangement of the
    order of [launch], the memory at the end is the one [launch] leaves. *)
Theorem element_order_is_immaterial js sched fuel a (m : mem scalar) :
  validated a -> machine_safe' a -> fair sched -> no_alias' a ->
  enough_fuel' a fuel ->
  Permutation js (jobs sched a) ->
  exists m1 log1 m2 log2,
    fold_opt (element_step' fuel a) js (m, []) = Some (m1, log1)
    /\ launch_traced' sched fuel a (m, []) = Some (m2, log2)
    /\ Permutation log1 log2
    /\ forall p, m1 p = m2 p.
Proof.
  intros V MS F NA EF P.
  assert (HD : 1 <= Args.dilation a) by (unfold validated in V; tauto).
  assert (J : forall c, In c js <-> in_shape a (cb c) (ch c) (ci c) (cd c)).
  { intros c. rewrite <- (in_jobs a c F). split; apply Permutation_in;
      [exact P | apply Permutation_sym; exact P]. }
  destruct (@elements_characterised js fuel a m [] J HD MS NA EF)
    as (m1 & R1 & V1 & Fr1).
  destruct (launch_traced_characterised m F HD MS NA EF)
    as (m2 & R2 & V2 & Fr2).
  exists m1. eexists. exists m2. eexists.
  split; [exact R1|]. split; [exact R2|].
  split; [simpl; now apply Permutation_map|].
  eapply characterised_unique; [exact V1 | exact Fr1 | exact V2 | exact Fr2].
Qed.

End KernelFacts.

(** ** The worked instance meets the side conditions *)

Lemma example_validated : validated Example.args.
Proof. unfold validated; simpl. repeat split; lia. Qed.

Lemma example_machine_safe :
  machine_safe WindowGeometry.get_window_start WindowGeometry.get_window_end
    Example.args.
Proof. apply machine_safeb_sound. vm_compute. reflexivity. Qed.

Lemma example_no_alias :
  no_alias WindowGeometry.get_window_start WindowGeometry.get_window_end
    Example.args.
Proof. apply no_aliasb_sound. vm_compute. reflexivity. Qed.

Lemma example_enough_fuel :
  enough_fuel WindowGeometry.get_window_start WindowGeometry.get_window_end
    Example.args 3.
Proof. apply enough_fuelb_sound. vm_compute. reflexivity. Qed.

Lemma launch_aggregate_pattern_witness :
  exists m',
    launch 0 Z.add Z.mul WindowGeometry.get_window_start
      WindowGeometry.get_window_end sequential 3 Example.args Example.memory
    = Some m'
    /\ (forall b h i d, in_shape Example.args b h i d ->
          output_at Example.args m' b h i d
          = ssum 0 Z.add
              (map (fun k =>
                      weights_at Example.args Example.memory b h i k
                      * values_at Example.args Example.memory b h
                          (neighbor WindowGeometry.get_window_start
                             Example.args i k) d)
                   (zrange 0 (num_neighbors WindowGeometry.get_window_start
                                WindowGeometry.get_window_end
                                Example.args i))))
    /\ (forall i k, 0 <= k ->
          (k < num_neighbors WindowGeometry.get_window_start
                 WindowGeometry.get_window_end Example.args i <->
           window_start WindowGeometry.get_window_start Example.args i
           + k * Args.dilation Example.args
           < window_end WindowGeometry.get_window_start
               WindowGeometry.get_window_end Example.args i))
    /\ (forall i k,
          neighbor WindowGeometry.get_window_start Example.args i k
          = window_start WindowGeometry.get_window_start Example.args i
            + k * Args.dilation Example.args).
Proof.
  apply launch_aggregate_pattern.
  - exact example_validated.
  - exact example_machine_safe.
  - exact fair_sequential.
  - exact example_no_alias.
  - exact example_enough_fuel.
Defined.

Lemma launch_schedule_independent_witness :
  (forall b h i d b' h' i' d',
      in_shape Example.args b h i d -> in_shape Example.args b' h' i' d' ->
      (b, h, i, d) <> (b', h', i', d') ->
      linear_index Example.args b h i d
      <> linear_index Example.args b' h' i' d')
  /\ (forall b, 0 <= b < Args.batch_size Example.args ->
        NoDup (chunk_indices
                 (Example.two_threads b 0 (Args.heads Example.args)
                    GRAIN_SIZE)))
  /\ exists m1 log1 m2 log2,
       launch_traced 0 Z.add Z.mul WindowGeometry.get_window_start
         WindowGeometry.get_window_end Example.two_threads 3 Example.args
         (Example.memory, []) = Some (m1, log1)
       /\ launch_traced 0 Z.add Z.mul WindowGeometry.get_window_start
            WindowGeometry.get_window_end sequential 3 Example.args
            (Example.memory, []) = Some (m2, log2)
       /\ NoDup log1 /\ Permutation log1 (zrange 0 (numel Example.args))
       /\ NoDup log2 /\ Permutation log2 (zrange 0 (numel Example.args))
       /\ (forall b h i d, in_shape Example.args b h i d ->
             output_at Example.args m1 b h i d
             = aggregate 0 Z.add Z.mul WindowGeometry.get_window_start
                 WindowGeometry.get_window_end Example.args Example.memory
                 b h i d
             /\ output_at Example.args m2 b h i d
                = aggregate 0 Z.add Z.mul WindowGeometry.get_window_start
                    WindowGeometry.get_window_end Example.args Example.memory
                    b h i d)
       /\ forall p, m1 p = m2 p.
Proof.
  apply launch_schedule_independent.
  - exact example_validated.
  - exact example_machine_safe.
  - exact fair_two_threads.
  - exact fair_sequential.
  - exact example_no_alias.
  - exact example_enough_fuel.
Defined.

Lemma launch_frame_witness :
  exists m1,
    launch 0 Z.add Z.mul WindowGeometry.get_window_start
      WindowGeometry.get_window_end Example.two_threads 3 Example.args
      Example.memory = Some m1
    /\ (forall p, ~ in_output Example.args p -> m1 p = Example.memory p)
    /\ (forall b h i d, in_shape Example.args b h i d ->
          forall p,
            In p (reads WindowGeometry.get_window_start
                    WindowGeometry.get_window_end Example.args b h i d) ->
            m1 p = Example.memory p)
    /\ exists m2,
         launch 0 Z.add Z.mul WindowGeometry.get_window_start
           WindowGeometry.get_window_end sequential 3 Example.args m1
         = Some m2
         /\ forall p, m2 p = m1 p.
Proof.
  apply launch_frame.
  - exact example_validated.
  - exact example_machine_safe.
  - exact fair_two_threads.
  - exact fair_sequential.
  - exact example_no_alias.
  - exact example_enough_fuel.
Defined.

Lemma element_order_is_immaterial_witness :
  exists m1 log1 m2 log2,
    fold_opt
      (element_step 0 Z.add Z.mul WindowGeometry.get_window_start
         WindowGeometry.get_window_end 3 Example.args)
      (rev (jobs sequential Example.args)) (Example.memory, [])
    = Some (m1, log1)
    /\ launch_traced 0 Z.add Z.mul WindowGeometry.get_window_start
         WindowGeometry.get_window_end sequential 3 Example.args
         (Example.memory, []) = Some (m2, log2)
    /\ Permutation log1 log2
    /\ forall p, m1 p = m2 p.
Proof.
  apply element_order_is_immaterial.
  - exact example_validated.
  - exact example_machine_safe.
  - exact fair_sequential.
  - exact example_no_alias.
  - exact example_enough_fuel.
  - apply Permutation_sym, Permutation_rev.
Defined.
(** ** Window geometry *)

Module WindowFacts.

Import WindowGeometry.

Lemma start_nonneg i L K R D c :
  0 <= i -> 1 <= D -> 0 <= get_window_start i L K R D c.
Proof.
  intros Hi HD. unfold get_window_start.
  assert (0 <= Z.rem i D) by (apply Z.rem_nonneg; lia).
  destruct c.
  - assert (0 <= Z.max 0 (Z.quot i D - K + 1) * D)
      by (apply Z.mul_nonneg_nonneg; lia).
    lia.
  - cbv zeta.
    assert (0 <= Z.max 0 (Z.max 0 (Z.quot i D - R)
                - Z.max 0 (Z.quot i D + R
                    - (Z.quot (L - Z.rem i D + D - 1) D - 1))) * D)
      by (apply Z.mul_nonneg_nonneg; lia).
    lia.
Qed.

Lemma end_le_length i s L K R D c :
  0 <= i < L -> get_window_end i s L K R D c <= L.
Proof. intros Hi. unfold get_window_end. destruct c; lia. Qed.

(** The start of a window is in the residue class of its query position. *)
Lemma start_congruent i L K R D c :
  0 <= i -> 1 <= D -> (get_window_start i L K R D c) mod D = i mod D.
Proof.
  intros Hi HD. unfold get_window_start.
  rewrite Z.rem_mod_nonneg by lia.
  rewrite Z.add_comm, Z.mod_add by lia.
  apply Z.mod_mod. lia.
Qed.

End WindowFacts.

(** C5: with [causal = true], for every position [i] of the axis and every
    dilation [D >= 1], the window starts at [max(0, i - K + 1)] taken in
    steps of the dilation, that is at [max(0, i/D - K + 1) * D + i mod D],
    which for [D = 1] is [max(0, i - K + 1)]; it ends at [i + 1]; and no
    visited neighbor [start + k * D] exceeds [i]. *)
Theorem causal_window i L K R D :
  0 <= i < L -> 1 <= D ->
  let start := WindowGeometry.get_window_start i L K R D true in
  let end_ := WindowGeometry.get_window_end i start L K R D true in
  start = Z.max 0 (i / D - K + 1) * D + i mod D
  /\ (D = 1 -> start = Z.max 0 (i - K + 1))
  /\ end_ = i + 1
  /\ forall k, 0 <= k -> start + k * D < end_ -> start + k * D <= i.
Proof.
  intros Hi HD start end_.
  assert (E : start = Z.max 0 (i / D - K + 1) * D + i mod D).
  { unfold start, WindowGeometry.get_window_start.
    rewrite Z.rem_mod_nonneg, Z.quot_div_nonneg by lia. reflexivity. }
  split; [exact E|]. split; [|split].
  - intros ->. rewrite E, Z.div_1_r, Z.mod_1_r. lia.
  - reflexivity.
  - intros k Hk H. unfold end_, WindowGeometry.get_window_end in H. lia.
Qed.

Lemma causal_window_witness :
  let start := WindowGeometry.get_window_start 7 9 3 1 2 true in
  let end_ := WindowGeometry.get_window_end 7 start 9 3 1 2 true in
  start = Z.max 0 (7 / 2 - 3 + 1) * 2 + 7 mod 2
  /\ (2 = 1 -> start = Z.max 0 (7 - 3 + 1))
  /\ end_ = 7 + 1
  /\ forall k, 0 <= k -> start + k * 2 < end_ -> start + k * 2 <= 7.
Proof. apply (@causal_window 7 9 3 1 2); lia. Defined.

(** Every neighbor the window loop visits is a position of the axis. *)
Lemma neighbor_in_axis a i k :
  1 <= Args.dilation a -> 0 <= i < Args.length a ->
  0 <= k < num_neighbors WindowGeometry.get_window_start
             WindowGeometry.get_window_end a i ->
  0 <= neighbor WindowGeometry.get_window_start a i k < Args.length a.
Proof.
  intros HD Hi [Hk0 Hk1]. unfold num_neighbors in Hk1.
  apply (proj2 (steps_below_spec _ _ HD Hk0)) in Hk1.
  unfold neighbor, window_end, window_start in *.
  pose proof (@WindowFacts.start_nonneg i (Args.length a)
                (Args.kernel_size a) (Z.quot (Args.kernel_size a) 2)
                (Args.dilation a) (Args.is_causal a)
                (proj1 Hi) HD) as H0.
  pose proof (@WindowFacts.end_le_length i
                (WindowGeometry.get_window_start i (Args.length a)
                   (Args.kernel_size a) (Z.quot (Args.kernel_size a) 2)
                   (Args.dilation a) (Args.is_causal a))
                (Args.length a) (Args.kernel_size a)
                (Z.quot (Args.kernel_size a) 2) (Args.dilation a)
                (Args.is_causal a) Hi) as H1.
  assert (0 <= k * Args.dilation a) by (apply Z.mul_nonneg_nonneg; lia).
  lia.
Qed.

(** C6: for every validated shape and window (any length, odd kernel size,
    dilation at least 1, causal or not) and every query position [i] of the
    axis, every neighbor the aggregation loop visits lies in [0, length);
    hence the offset at which the kernel reads the values tensor lies
    inside that tensor. *)
Theorem neighbors_in_bounds a b h i d k :
  validated a -> in_shape a b h i d ->
  0 <= k < num_neighbors WindowGeometry.get_window_start
             WindowGeometry.get_window_end a i ->
  0 <= neighbor WindowGeometry.get_window_start a i k < Args.length a
  /\ 0 <= linear_index a b h (neighbor WindowGeometry.get_window_start a i k) d
     < numel a.
Proof.
  intros V Hs Hk.
  assert (HD : 1 <= Args.dilation a) by (unfold validated in V; tauto).
  assert (Hi : 0 <= i < Args.length a) by (unfold in_shape in Hs; tauto).
  pose proof (@neighbor_in_axis a i k HD Hi Hk) as B.
  split; [exact B|].
  apply linear_index_bound. unfold in_shape in *. tauto.
Qed.

Lemma neighbors_in_bounds_witness :
  0 <= neighbor WindowGeometry.get_window_start Example.args 4 2
    < Args.length Example.args
  /\ 0 <= linear_index Example.args 1 1
            (neighbor WindowGeometry.get_window_start Example.args 4 2) 1
     < numel Example.args.
Proof.
  apply (@neighbors_in_bounds Example.args 1 1 4 1 2).
  - exact example_validated.
  - unfold in_shape; simpl; lia.
  - vm_compute. split; discriminate || reflexivity.
Defined.

(** ** Windows and layouts *)

(** A window never holds more than [kernel_size] neighbors. *)
Lemma num_neighbors_le_kernel a i :
  0 <= i -> 1 <= Args.dilation a -> 0 <= Args.kernel_size a ->
  num_neighbors WindowGeometry.get_window_start WindowGeometry.get_window_end
    a i <= Args.kernel_size a.
Proof.
  intros Hi HD HK.
  apply Z.nlt_ge. unfold num_neighbors. intros H.
  apply (proj2 (steps_below_spec _ _ HD HK)) in H.
  unfold window_end, window_start, WindowGeometry.get_window_end,
    WindowGeometry.get_window_start in H.
  destruct (Args.is_causal a); [|lia].
  set (D := Args.dilation a) in *. set (K := Args.kernel_size a) in *.
  pose proof (Z.quot_rem' i D) as E.
  assert (Z.quot i D - K + 1 <= Z.max 0 (Z.quot i D - K + 1)) by lia.
  assert ((Z.quot i D - K + 1) * D <= Z.max 0 (Z.quot i D - K + 1) * D)
    by (apply Z.mul_le_mono_nonneg_r; lia).
  lia.
Qed.

Lemma weights_offset_bound a b h i k :
  weights_contiguous a ->
  0 <= b < Args.batch_size a -> 0 <= h < Args.heads a ->
  0 <= i < Args.length a -> 0 <= k < Args.kernel_size a ->
  0 <= attn_offset a b h i + k < weights_numel a.
Proof.
  intros (E2 & E1 & E0) Hb Hh Hi Hk.
  unfold attn_offset, weights_numel. rewrite E2, E1, E0.
  pose proof (mixed_bound Hi Hk) as H1.
  pose proof (mixed_bound Hh H1) as H2.
  pose proof (mixed_bound Hb H2) as H3.
  lia.
Qed.

(** With the weights in their contiguous layout and the output tensor
    apart from both inputs, the kernel reads nothing of the output. *)
Lemma separated_no_alias a :
  validated a -> weights_contiguous a -> separated a ->
  no_alias WindowGeometry.get_window_start WindowGeometry.get_window_end a.
Proof.
  intros V WC (Sw & Sv) b h i d Hs p Hp.
  assert (HD : 1 <= Args.dilation a) by (unfold validated in V; tauto).
  assert (HK : 1 <= Args.kernel_size a) by (unfold validated in V; tauto).
  unfold reads in Hp. apply in_flat_map in Hp. destruct Hp as (k & Hk & Hp).
  apply in_zrange in Hk.
  pose proof Hs as (Hb & Hh & Hi & Hd).
  pose proof (@num_neighbors_le_kernel a i (proj1 Hi) HD ltac:(lia)) as Hn.
  unfold in_output. simpl in Hp. destruct Hp as [<- | [<- | []]].
  - pose proof (@weights_offset_bound a b h i k WC Hb Hh Hi ltac:(lia)). lia.
  - pose proof (@neighbor_in_axis a i k HD Hi Hk) as Hx.
    assert (Hl : 0 <= linear_index a b h
                        (neighbor WindowGeometry.get_window_start a i k) d
                 < numel a)
      by (apply linear_index_bound; unfold in_shape; tauto).
    lia.
Qed.


(** For an element of the shape every stride and offset of values and
    output, and every partial sum in the order in which the source adds
    them, lies between 0 and the number of elements of the tensor. *)
Lemma value_offsets_range a b h i d x :
  validated a -> in_shape a b h i d -> 0 <= x < Args.length a ->
  0 <= values_stride_2 a <= numel a
  /\ 0 <= values_stride_1 a <= numel a
  /\ 0 <= values_stride_0 a <= numel a
  /\ 0 <= b * values_stride_0 a <= numel a
  /\ 0 <= h * values_stride_1 a <= numel a
  /\ 0 <= b * values_stride_0 a + h * values_stride_1 a <= numel a
  /\ 0 <= b * values_stride_0 a + h * values_stride_1 a + d <= numel a
  /\ 0 <= x * values_stride_2 a <= numel a
  /\ 0 <= b * values_stride_0 a + h * values_stride_1 a + d
          + x * values_stride_2 a <= numel a
  /\ 0 <= i * values_stride_2 a <= numel a
  /\ 0 <= b * values_stride_0 a + h * values_stride_1 a
          + i * values_stride_2 a <= numel a
  /\ 0 <= linear_index a b h i d <= numel a.
Proof.
  intros (VB & VH & VL & VD & _) (Hb & Hh & Hi & Hd) Hx.
  unfold linear_index, numel, values_stride_0, values_stride_1,
    values_stride_2 in *.
  set (D := Args.dim a) in *. set (L := Args.length a) in *.
  set (H := Args.heads a) in *. set (B := Args.batch_size a) in *.
  assert (P1 : 0 <= L * D) by (apply Z.mul_nonneg_nonneg; lia).
  assert (P2 : 0 <= H * (L * D)) by (apply Z.mul_nonneg_nonneg; lia).
  assert (Q0 : 0 <= b * (H * (L * D))) by (apply Z.mul_nonneg_nonneg; lia).
  assert (Q1 : 0 <= h * (L * D)) by (apply Z.mul_nonneg_nonneg; lia).
  assert (Q2 : 0 <= i * D) by (apply Z.mul_nonneg_nonneg; lia).
  assert (Q3 : 0 <= x * D) by (apply Z.mul_nonneg_nonneg; lia).
  assert (R2 : i * D + D <= L * D).
  { replace (i * D + D) with ((i + 1) * D) by ring.
    apply Z.mul_le_mono_nonneg_r; lia. }
  assert (R3 : x * D + D <= L * D).
  { replace (x * D + D) with ((x + 1) * D) by ring.
    apply Z.mul_le_mono_nonneg_r; lia. }
  assert (R1 : h * (L * D) + L * D <= H * (L * D)).
  { replace (h * (L * D) + L * D) with ((h + 1) * (L * D)) by ring.
    apply Z.mul_le_mono_nonneg_r; lia. }
  assert (R0 : b * (H * (L * D)) + H * (L * D) <= B * (H * (L * D))).
  { replace (b * (H * (L * D)) + H * (L * D))
      with ((b + 1) * (H * (L * D))) by ring.
    apply Z.mul_le_mono_nonneg_r; lia. }
  assert (S1 : D <= L * D).
  { replace D with (1 * D) at 1 by ring.
    apply Z.mul_le_mono_nonneg_r; lia. }
  repeat split; lia.
Qed.

(** With the weights in their contiguous layout, both tensors small enough
    for their offsets to fit [int64_t], and [length + dilation] small
    enough for the loop variable to fit [int32_t] after its last
    increment, no operation of the call leaves its type. *)
Lemma contiguous_machine_safe a :
  validated a -> weights_contiguous a ->
  numel a <= INT64_MAX -> weights_numel a <= INT64_MAX ->
  Args.length a + Args.dilation a <= 2 ^ 31 ->
  machine_safe WindowGeometry.get_window_start WindowGeometry.get_window_end
    a.
Proof.
  intros V WC Hn Hw HL.
  assert (HD : 1 <= Args.dilation a) by (unfold validated in V; tauto).
  assert (HK : 1 <= Args.kernel_size a) by (unfold validated in V; tauto).
  assert (M : 0 < 2 ^ 63) by reflexivity.
  assert (S0 : in_shape a 0 0 0 0) by (unfold validated, in_shape in *; lia).
  assert (X0 : 0 <= 0 < Args.length a) by (unfold validated in V; lia).
  split.
  - pose proof (value_offsets_range V S0 X0) as R.
    unfold strides_fit, fits_int64, INT64_MAX in *. lia.
  - intros b h i d Hs. pose proof Hs as (Hb & Hh & Hi & Hd).
    assert (K0 : 0 <= 0 < Args.kernel_size a) by lia.
    pose proof (@weights_offset_bound a b h i 0 WC Hb Hh Hi K0) as W0.
    pose proof WC as (E2 & E1 & E0).
    assert (A0 : 0 <= b * Args.weights_stride_0 a).
    { rewrite E0. apply Z.mul_nonneg_nonneg; [lia|].
      apply Z.mul_nonneg_nonneg; [unfold validated in V; lia|].
      apply Z.mul_nonneg_nonneg; lia. }
    assert (A1 : 0 <= h * Args.weights_stride_1 a).
    { rewrite E1. apply Z.mul_nonneg_nonneg; [lia|].
      apply Z.mul_nonneg_nonneg; lia. }
    assert (A2 : 0 <= i * Args.weights_stride_2 a).
    { rewrite E2. apply Z.mul_nonneg_nonneg; lia. }
    split.
    + pose proof (value_offsets_range V Hs Hi) as R.
      unfold offsets_fit, fits_int64, INT64_MAX, attn_offset in *.
      repeat split; lia.
    + intros k Hk.
      pose proof (@neighbor_in_axis a i k HD Hi Hk) as Hx.
      pose proof (value_offsets_range V Hs Hx) as R.
      pose proof (@num_neighbors_le_kernel a i (proj1 Hi) HD ltac:(lia))
        as Hnk.
      assert (K1 : 0 <= k < Args.kernel_size a) by lia.
      pose proof (@weights_offset_bound a b h i k WC Hb Hh Hi K1) as W1.
      unfold step_fits, fits_int64, fits_int32, INT64_MAX, INT32_MAX,
        INT32_MIN in *.
      assert (M31 : 2 ^ 31 = 2147483648) by reflexivity.
      repeat split; lia.
Qed.

(** ** The scenario: every weight and every value equal to one *)

Lemma scenario_validated w v o causal : validated (scenario_args w v o causal).
Proof. unfold validated; simpl. repeat split; lia. Qed.

Lemma scenario_counts w v o causal i :
  0 <= i < 5 ->
  num_neighbors WindowGeometry.get_window_start WindowGeometry.get_window_end
    (scenario_args w v o causal) i
  = if causal then Z.min 3 (i + 1) else 3.
Proof.
  intros Hi.
  assert (C : i = 0 \/ i = 1 \/ i = 2 \/ i = 3 \/ i = 4) by lia.
  unfold num_neighbors, window_end, window_start; simpl.
  destruct causal; destruct C as [-> | [-> | [-> | [-> | ->]]]]; reflexivity.
Qed.

Section Scenario.

Variable scalar : Type.
Variables zero one two three : scalar.
Variables add mul : scalar -> scalar -> scalar.

(** What the scenario needs of the arithmetic of [scalar_t]: the small
    counts are exact. *)
Hypothesis mul_one_one : mul one one = one.
Hypothesis add_zero_one : add zero one = one.
Hypothesis add_one_one : add one one = two.
Hypothesis add_two_one : add two one = three.

Variable sched : scheduler.
Variable fuel : nat.
Variable m : mem scalar.
Variables w v o : Z.

Hypothesis sched_fair : fair sched.
Hypothesis fuel_3 : (3 <= fuel)%nat.
Hypothesis weights_one : forall k, 0 <= k < 15 -> m (w + k) = one.
Hypothesis values_one : forall x, 0 <= x < 5 -> m (v + x) = one.
Hypothesis output_apart_weights : o + 5 <= w \/ w + 15 <= o.
Hypothesis output_apart_values : o + 5 <= v \/ v + 5 <= o.

(** Each output element is the sum of as many ones as its window holds
    neighbors. *)
Lemma scenario_sums causal :
  exists m',
    NeighborhoodNeighborhood1D zero add mul sched fuel
      w v o 1 1 5 1 15 15 3 3 1 causal m = Some m'
    /\ forall i, 0 <= i < 5 ->
         m' (o + i)
         = ssum zero add
             (map (fun _ => one)
                  (zrange 0 (if causal then Z.min 3 (i + 1) else 3))).
Proof.
  unfold NeighborhoodNeighborhood1D.
  change (Args.Make w v o 5 1 3 1 1 1 15 15 3 causal)
    with (scenario_args w v o causal).
  pose proof (scenario_validated w v o causal) as V.
  assert (HD : 1 <= Args.dilation (scenario_args w v o causal))
    by (simpl; lia).
  assert (NA : no_alias WindowGeometry.get_window_start
                 WindowGeometry.get_window_end (scenario_args w v o causal)).
  { apply separated_no_alias; [exact V | |].
    - unfold weights_contiguous; simpl. repeat split; reflexivity.
    - unfold separated, numel, weights_numel; simpl. lia. }
  assert (EF : enough_fuel WindowGeometry.get_window_start
                 WindowGeometry.get_window_end (scenario_args w v o causal)
                 fuel).
  { intros i Hi. simpl in Hi.
    rewrite scenario_counts by exact Hi.
    destruct causal; lia. }
  assert (MS : machine_safe WindowGeometry.get_window_start
                 WindowGeometry.get_window_end (scenario_args w v o causal)).
  { apply contiguous_machine_safe; [exact V | | | |].
    - unfold weights_contiguous; simpl. repeat split; reflexivity.
    - vm_compute. discriminate.
    - vm_compute. discriminate.
    - vm_compute. discriminate. }
  destruct (@launch_characterised scalar zero add mul
              WindowGeometry.get_window_start WindowGeometry.get_window_end
              sched fuel (scenario_args w v o causal) m sched_fair HD MS NA
              EF)
    as (m' & Hrun & Hout & _).
  exists m'. split; [exact Hrun|].
  intros i Hi.
  assert (Hs : in_shape (scenario_args w v o causal) 0 0 i 0)
    by (unfold in_shape; simpl; lia).
  replace (o + i)
    with (Args.output (scenario_args w v o causal)
          + linear_index (scenario_args w v o causal) 0 0 i 0)
    by (unfold linear_index, values_stride_0, values_stride_1,
          values_stride_2; simpl; lia).
  change (output_at (scenario_args w v o causal) m' 0 0 i 0
          = ssum zero add
              (map (fun _ => one)
                   (zrange 0 (if causal then Z.min 3 (i + 1) else 3)))).
  rewrite (Hout _ _ _ _ Hs). unfold aggregate.
  rewrite scenario_counts by exact Hi.
  f_equal. apply map_ext_in. intros k Hk. apply in_zrange in Hk.
  assert (Hk3 : 0 <= k < 3) by (destruct causal; lia).
  assert (Hn : 0 <= k < num_neighbors WindowGeometry.get_window_start
                          WindowGeometry.get_window_end
                          (scenario_args w v o causal) i)
    by (rewrite scenario_counts by exact Hi; exact Hk).
  pose proof (@neighbor_in_axis (scenario_args w v o causal) i k HD Hi Hn)
    as Hx.
  simpl in Hx.
  unfold weights_at, values_at.
  replace (Args.weights (scenario_args w v o causal)
           + (attn_offset (scenario_args w v o causal) 0 0 i + k))
    with (w + (i * 3 + k))
    by (unfold attn_offset; simpl; lia).
  replace (Args.values (scenario_args w v o causal)
           + linear_index (scenario_args w v o causal) 0 0
               (neighbor WindowGeometry.get_window_start
                  (scenario_args w v o causal) i k) 0)
    with (v + neighbor WindowGeometry.get_window_start
                (scenario_args w v o causal) i k)
    by (unfold linear_index, values_stride_0, values_stride_1,
          values_stride_2; simpl; lia).
  rewrite weights_one by lia. rewrite values_one by lia.
  exact mul_one_one.
Qed.

(** C3: length 5, kernel size 3, dilation 1, not causal, dim 1, every
    weight and every value equal to 1: the output is [3, 3, 3, 3, 3]; the
    positions at the boundary see a full window of 3, as those inside do. *)
Theorem scenario_not_causal :
  exists m',
    NeighborhoodNeighborhood1D zero add mul sched fuel
      w v o 1 1 5 1 15 15 3 3 1 false m = Some m'
    /\ scenario_output m' o = [three; three; three; three; three].
Proof.
  destruct (scenario_sums false) as (m' & Hrun & Hval).
  exists m'. split; [exact Hrun|].
  unfold scenario_output.
  change (zrange 0 5) with [0; 1; 2; 3; 4]. simpl map.
  rewrite !Hval by lia. change (zrange 0 3) with [0; 1; 2].
  unfold ssum; simpl.
  now rewrite add_zero_one, add_one_one, add_two_one.
Qed.

(** C4: the same with [causal = true]: the output is [1, 2, 3, 3, 3]; the
    window grows from width 1 to width 3 and stays there. *)
Theorem scenario_causal :
  exists m',
    NeighborhoodNeighborhood1D zero add mul sched fuel
      w v o 1 1 5 1 15 15 3 3 1 true m = Some m'
    /\ scenario_output m' o = [one; two; three; three; three].
Proof.
  destruct (scenario_sums true) as (m' & Hrun & Hval).
  exists m'. split; [exact Hrun|].
  unfold scenario_output.
  change (zrange 0 5) with [0; 1; 2; 3; 4]. simpl map.
  rewrite !Hval by lia.
  change (zrange 0 (Z.min 3 (0 + 1))) with [0].
  change (zrange 0 (Z.min 3 (1 + 1))) with [0; 1].
  change (zrange 0 (Z.min 3 (2 + 1))) with [0; 1; 2].
  change (zrange 0 (Z.min 3 (3 + 1))) with [0; 1; 2].
  change (zrange 0 (Z.min 3 (4 + 1))) with [0; 1; 2].
  unfold ssum; simpl.
  now rewrite add_zero_one, add_one_one, add_two_one.
Qed.

End Scenario.

Lemma scenario_not_causal_witness :
  exists m',
    NeighborhoodNeighborhood1D 0 Z.add Z.mul sequential 3
      0 15 20 1 1 5 1 15 15 3 3 1 false (fun p => if p <? 20 then 1 else 0)
    = Some m'
    /\ scenario_output m' 20 = [3; 3; 3; 3; 3].
Proof.
  apply (@scenario_not_causal Z 0 1 2 3 Z.add Z.mul);
    try reflexivity; try lia.
  - exact fair_sequential.
  - intros k Hk. destruct (0 + k <? 20) eqn:E; [reflexivity|].
    apply Z.ltb_ge in E. lia.
  - intros x Hx. destruct (15 + x <? 20) eqn:E; [reflexivity|].
    apply Z.ltb_ge in E. lia.
Defined.

Lemma scenario_causal_witness :
  exists m',
    NeighborhoodNeighborhood1D 0 Z.add Z.mul sequential 3
      0 15 20 1 1 5 1 15 15 3 3 1 true (fun p => if p <? 20 then 1 else 0)
    = Some m'
    /\ scenario_output m' 20 = [1; 2; 3; 3; 3].
Proof.
  apply (@scenario_causal Z 0 1 2 3 Z.add Z.mul);
    try reflexivity; try lia.
  - exact fair_sequential.
  - intros k Hk. destruct (0 + k <? 20) eqn:E; [reflexivity|].
    apply Z.ltb_ge in E. lia.
  - intros x Hx. destruct (15 + x <? 20) eqn:E; [reflexivity|].
    apply Z.ltb_ge in E. lia.
Defined.

(** ** The grain size *)

Section Grain.

Variable scalar : Type.
Variable szero : scalar.
Variable sadd smul : scalar -> scalar -> scalar.
Variable get_window_start : Z -> Z -> Z -> Z -> Z -> bool -> Z.
Variable get_window_end : Z -> Z -> Z -> Z -> Z -> Z -> bool -> Z.

(** [launch] asks the scheduler one question per batch: the chunks of
    [0, heads) at grain size [GRAIN_SIZE]. *)
Lemma launch_asks_GRAIN_SIZE s1 s2 fuel a (m : mem scalar) :
  (forall b, 0 <= b < Args.batch_size a ->
     s1 b 0 (Args.heads a) GRAIN_SIZE = s2 b 0 (Args.heads a) GRAIN_SIZE) ->
  launch szero sadd smul get_window_start get_window_end s1 fuel a m
  = launch szero sadd smul get_window_start get_window_end s2 fuel a m.
Proof.
  intros H. unfold launch, launch_traced.
  destruct (mul64 (Args.length a) (Args.dim a)) as [vs1|];
    cbn [obind]; [|reflexivity].
  destruct (mul64 (Args.heads a) vs1) as [vs0|];
    cbn [obind]; [|reflexivity].
  f_equal. rewrite !for_range_fold.
  apply fold_opt_ext. intros b s Hb. apply in_zrange in Hb.
  unfold parallel_for. now rewrite (H b Hb).
Qed.

(** C7, as the code has it: the grain size handed to the parallel-for over
    the heads is the constant [GRAIN_SIZE], which is 0 (picked
    automatically); it is not an argument of the operation, and what the
    scheduler would answer for any other grain size has no effect on any
    call. *)
Theorem grain_size_is_constant s1 s2 fuel a (m : mem scalar) :
  (forall call begin end_, s1 call begin end_ 0 = s2 call begin end_ 0) ->
  GRAIN_SIZE = 0
  /\ launch szero sadd smul get_window_start get_window_end s1 fuel a m
     = launch szero sadd smul get_window_start get_window_end s2 fuel a m.
Proof.
  intros H. split; [reflexivity|].
  apply launch_asks_GRAIN_SIZE. intros b _. apply H.
Qed.

End Grain.

Lemma grain_size_is_constant_witness :
  GRAIN_SIZE = 0
  /\ launch 0 Z.add Z.mul WindowGeometry.get_window_start
       WindowGeometry.get_window_end sequential 3 Example.args Example.memory
     = launch 0 Z.add Z.mul WindowGeometry.get_window_start
         WindowGeometry.get_window_end only_at_grain_0 3 Example.args
         Example.memory.
Proof.
  apply grain_size_is_constant.
  intros call begin end_. reflexivity.
Defined.

(** C7, as the claim has it, fails: were the grain size set by the caller,
    some call would depend on what the scheduler answers at a grain size
    other than 0; no call does. *)
Lemma grain_size_not_tunable :
  ~ exists (g : Z) (s1 s2 : scheduler) (fuel : nat) (a : Args.t)
           (m : mem Z),
      g <> 0
      /\ (forall call begin end_ g', g' <> g ->
            s1 call begin end_ g' = s2 call begin end_ g')
      /\ launch 0 Z.add Z.mul WindowGeometry.get_window_start
           WindowGeometry.get_window_end s1 fuel a m
         <> launch 0 Z.add Z.mul WindowGeometry.get_window_start
              WindowGeometry.get_window_end s2 fuel a m.
Proof.
  intros (g & s1 & s2 & fuel & a & m & Hg & Hs & Hne).
  apply Hne. apply launch_asks_GRAIN_SIZE.
  intros b _. apply Hs. unfold GRAIN_SIZE. congruence.
Qed.

(** ** Addressing *)

Section Addressing.

Variable scalar : Type.
Variable szero : scalar.
Variable sadd smul : scalar -> scalar -> scalar.
Variable get_window_start : Z -> Z -> Z -> Z -> Z -> bool -> Z.
Variable get_window_end : Z -> Z -> Z -> Z -> Z -> Z -> bool -> Z.

(** C8, as the code has it: on validated input on which no integer
    operation leaves its type, the weights are addressed through the three
    strides the caller supplies (batch, head, query position), with stride 1
    along the window; the values and the output are addressed through the
    row-major strides [heads * length * dim], [length * dim], [dim], 1 that
    [launch] computes from the shape, whatever layout the caller had in
    mind. *)
Theorem launch_addressing sched fuel w v o L H K D dim B ws0 ws1 ws2 causal
  (m : mem scalar) :
  let a := Args.Make w v o L H K D dim B ws0 ws1 ws2 causal in
  validated a -> machine_safe get_window_start get_window_end a ->
  fair sched ->
  no_alias get_window_start get_window_end a ->
  enough_fuel get_window_start get_window_end a fuel ->
  exists m',
    launch szero sadd smul get_window_start get_window_end sched fuel a m
    = Some m'
    /\ forall b h i d, in_shape a b h i d ->
         m' (o + (b * (H * (L * dim)) + h * (L * dim) + i * dim + d))
         = ssum szero sadd
             (map (fun k =>
                     smul (m (w + (b * ws0 + h * ws1 + i * ws2 + k)))
                          (m (v + (b * (H * (L * dim)) + h * (L * dim)
                                   + (window_start get_window_start a i
                                      + k * D) * dim
                                   + d))))
                  (zrange 0 (num_neighbors get_window_start get_window_end
                               a i))).
Proof.
  intros a V MS F NA EF.
  assert (HD : 1 <= Args.dilation a) by (unfold validated in V; tauto).
  destruct (@launch_characterised scalar szero sadd smul get_window_start
              get_window_end sched fuel a m F HD MS NA EF)
    as (m' & Hrun & Hout & _).
  exists m'. split; [exact Hrun|].
  intros b h i d Hs. exact (Hout b h i d Hs).
Qed.

End Addressing.

Lemma launch_addressing_witness :
  exists m',
    launch 0 Z.add Z.mul WindowGeometry.get_window_start
      WindowGeometry.get_window_end sequential 3 Example.args Example.memory
    = Some m'
    /\ forall b h i d, in_shape Example.args b h i d ->
         m' (200 + (b * (2 * (5 * 2)) + h * (5 * 2) + i * 2 + d))
         = ssum 0 Z.add
             (map (fun k =>
                     Example.memory (0 + (b * 30 + h * 15 + i * 3 + k))
                     * Example.memory
                         (100 + (b * (2 * (5 * 2)) + h * (5 * 2)
                                 + (window_start
                                      WindowGeometry.get_window_start
                                      Example.args i + k * 1) * 2
                                 + d)))
                  (zrange 0 (num_neighbors WindowGeometry.get_window_start
                               WindowGeometry.get_window_end
                               Example.args i))).
Proof.
  apply (@launch_addressing Z 0 Z.add Z.mul
           WindowGeometry.get_window_start WindowGeometry.get_window_end
           sequential 3 0 100 200 5 2 3 1 2 2 30 15 3 false Example.memory).
  - exact example_validated.
  - exact example_machine_safe.
  - exact fair_sequential.
  - exact example_no_alias.
  - exact example_enough_fuel.
Defined.

(** C8, as the claim has it, fails for the values tensor: handed a values
    tensor whose rows are two cells apart, a valid layout of the shape, the
    kernel reads row 1 at one cell from the base, the cell between the
    rows, and stores 99 where the sum over the caller's tensor is 7. *)
Lemma values_layout_is_assumed :
  valid_layout Padded.args Padded.values_strides
  /\ exists m',
       launch 0 Z.add Z.mul WindowGeometry.get_window_start
         WindowGeometry.get_window_end sequential 1 Padded.args Padded.memory
       = Some m'
       /\ output_at Padded.args m' 0 0 1 0 = 99
       /\ aggregate_strided 0 Z.add Z.mul WindowGeometry.get_window_start
            WindowGeometry.get_window_end Padded.args Padded.values_strides
            Padded.memory 0 0 1 0 = 7
       /\ strided_at Padded.memory (Args.values Padded.args)
            Padded.values_strides 0 0 1 0 = 7.
Proof.
  split.
  - unfold valid_layout, in_shape. simpl. intros. lia.
  - eexists. split; [vm_compute; reflexivity|].
    repeat split; vm_compute; reflexivity.
Qed.

(** ** Precision of the accumulation *)

Lemma fold_left_map (X Y A : Type) (f : A -> Y -> A) (g : X -> Y) l acc :
  fold_left f (map g l) acc = fold_left (fun r x => f r (g x)) l acc.
Proof.
  revert acc; induction l as [|x l IH]; intros acc; simpl; auto.
Qed.

(** C2, as the code has it: the accumulator [output_update] has the element
    type itself.  On validated input on which no integer operation leaves
    its type, for half precision every product and every partial sum is
    rounded to half before the next step, and the store writes the half it
    is given, without a cast. *)
Theorem half_rounds_every_step gws gwe sched fuel a
  (m : mem spec_float) :
  validated a -> machine_safe gws gwe a -> fair sched ->
  no_alias gws gwe a -> enough_fuel gws gwe a fuel ->
  exists m',
    launch Half.zero Half.add Half.mul gws gwe sched fuel a m = Some m'
    /\ forall b h i d, in_shape a b h i d ->
         output_at a m' b h i d
         = fold_left
             (fun acc k =>
                Half.of_float
                  (Half.float_add
                     (Half.to_float acc)
                     (Half.to_float
                        (Half.of_float
                           (Half.float_mul
                              (Half.to_float (weights_at a m b h i k))
                              (Half.to_float
                                 (values_at a m b h (neighbor gws a i k)
                                    d)))))))
             (zrange 0 (num_neighbors gws gwe a i))
             (S754_zero false).
Proof.
  intros V MS F NA EF.
  assert (HD : 1 <= Args.dilation a) by (unfold validated in V; tauto).
  destruct (@launch_characterised spec_float Half.zero Half.add Half.mul
              gws gwe sched fuel a m F HD MS NA EF)
    as (m' & Hrun & Hout & _).
  exists m'. split; [exact Hrun|].
  intros b h i d Hs. rewrite (Hout b h i d Hs).
  unfold aggregate, ssum. rewrite fold_left_map. reflexivity.
Qed.

Lemma halfsum_validated : validated HalfSum.args.
Proof. unfold validated; simpl. repeat split; lia. Qed.

Lemma halfsum_machine_safe :
  machine_safe WindowGeometry.get_window_start WindowGeometry.get_window_end
    HalfSum.args.
Proof. apply machine_safeb_sound. vm_compute. reflexivity. Qed.

Lemma halfsum_no_alias :
  no_alias WindowGeometry.get_window_start WindowGeometry.get_window_end
    HalfSum.args.
Proof. apply no_aliasb_sound. vm_compute. reflexivity. Qed.

Lemma halfsum_enough_fuel :
  enough_fuel WindowGeometry.get_window_start WindowGeometry.get_window_end
    HalfSum.args 3.
Proof. apply enough_fuelb_sound. vm_compute. reflexivity. Qed.

Lemma half_rounds_every_step_witness :
  exists m',
    launch Half.zero Half.add Half.mul WindowGeometry.get_window_start
      WindowGeometry.get_window_end sequential 3 HalfSum.args HalfSum.memory
    = Some m'
    /\ forall b h i d, in_shape HalfSum.args b h i d ->
         output_at HalfSum.args m' b h i d
         = fold_left
             (fun acc k =>
                Half.of_float
                  (Half.float_add
                     (Half.to_float acc)
                     (Half.to_float
                        (Half.of_float
                           (Half.float_mul
                              (Half.to_float
                                 (weights_at HalfSum.args HalfSum.memory
                                    b h i k))
                              (Half.to_float
                                 (values_at HalfSum.args HalfSum.memory b h
                                    (neighbor WindowGeometry.get_window_start
                                       HalfSum.args i k) d)))))))
             (zrange 0 (num_neighbors WindowGeometry.get_window_start
                          WindowGeometry.get_window_end HalfSum.args i))
             (S754_zero false).
Proof.
  apply half_rounds_every_step.
  - exact halfsum_validated.
  - exact halfsum_machine_safe.
  - exact fair_sequential.
  - exact halfsum_no_alias.
  - exact halfsum_enough_fuel.
Defined.

(** C2, as the claim has it, fails: with weights 1 and values 2048, 1, 1 in
    half precision the kernel stores 2048, since 2048 + 1 rounds back to
    2048 in half at each of the two additions; accumulated in single
    precision and rounded at the store the sum is 2050. *)
Lemma half_accumulator_is_half :
  exists m',
    launch Half.zero Half.add Half.mul WindowGeometry.get_window_start
      WindowGeometry.get_window_end sequential 3 HalfSum.args HalfSum.memory
    = Some m'
    /\ output_at HalfSum.args m' 0 0 0 0 = Half.of_Z 2048
    /\ aggregate_in_float WindowGeometry.get_window_start
         WindowGeometry.get_window_end HalfSum.args HalfSum.memory 0 0 0 0
       = Half.of_Z 2050
    /\ output_at HalfSum.args m' 0 0 0 0
       <> aggregate_in_float WindowGeometry.get_window_start
            WindowGeometry.get_window_end HalfSum.args HalfSum.memory 0 0 0 0.
Proof.
  eexists. split; [vm_compute; reflexivity|].
  split; [vm_compute; reflexivity|].
  split; [vm_compute; reflexivity|].
  vm_compute. discriminate.
Qed.

(** * Further properties of the kernel *)

(** ** Degenerate inputs, and what the output depends on *)

Lemma fold_opt_fails (X St : Type) (body : X -> St -> option St) l x :
  In x l -> (forall s, body x s = None) ->
  forall s, fold_opt body l s = None.
Proof.
  intros Hx Hf. induction l as [|y l IH]; intros s; [destruct Hx|].
  simpl. destruct Hx as [-> | Hx].
  - now rewrite Hf.
  - destruct (body y s); simpl; auto.
Qed.

Section Behaviour.

Variable scalar : Type.
Variable szero : scalar.
Variable sadd smul : scalar -> scalar -> scalar.
Variable get_window_start : Z -> Z -> Z -> Z -> Z -> bool -> Z.
Variable get_window_end : Z -> Z -> Z -> Z -> Z -> Z -> bool -> Z.

(** X1: on validated input on which no integer operation leaves its type
    the call returns under any fair scheduler, whether or not the output
    tensor overlaps the inputs, and the offsets of its stores to [output],
    in the order of the stores, are the offsets [0 .. numel - 1] of the
    output tensor, each stored to once. *)
Theorem stores_cover_output sched fuel a (m : mem scalar) :
  validated a -> machine_safe get_window_start get_window_end a ->
  fair sched -> enough_fuel get_window_start get_window_end a fuel ->
  exists m' log,
    launch_traced szero sadd smul get_window_start get_window_end sched fuel
      a (m, []) = Some (m', log)
    /\ NoDup log
    /\ Permutation log (zrange 0 (numel a))
    /\ List.length log = Z.to_nat (numel a).
Proof.
  intros V MS F EF.
  assert (HD : 1 <= Args.dilation a) by (unfold validated in V; tauto).
  destruct (@elements_run scalar szero sadd smul get_window_start
              get_window_end (jobs sched a) fuel a (m, [])
              (fun c Hc => proj1 (in_jobs a c F) Hc) HD MS EF)
    as (m' & Hrun).
  exists m'. eexists. split.
  - rewrite launch_traced_as_jobs by apply MS. exact Hrun.
  - simpl. split; [now apply NoDup_written|].
    pose proof (written_permutation V F) as P.
    split; [exact P|].
    rewrite (Permutation_length P). unfold zrange.
    rewrite length_map, length_seq. f_equal. lia.
Qed.

(** X2: when the batch size, the number of heads or the length is not
    positive (and the two stride products fit [int64_t]), no body of the
    loop over the query positions runs: nothing is stored, and the memory
    is returned as it was. *)
Theorem launch_empty_shape sched fuel a (s : state scalar) :
  fair sched -> strides_fit a ->
  Args.batch_size a <= 0 \/ Args.heads a <= 0 \/ Args.length a <= 0 ->
  launch_traced szero sadd smul get_window_start get_window_end sched fuel
    a s = Some s.
Proof.
  intros F SF E. rewrite launch_traced_as_jobs by exact SF.
  destruct (jobs sched a) as [|c l] eqn:J; [reflexivity|].
  assert (Hc : In c (jobs sched a)) by (rewrite J; left; reflexivity).
  apply (in_jobs a _ F) in Hc. unfold in_shape in Hc. lia.
Qed.

(** X3: the window loop relies on a positive dilation.  Entered with a
    dilation that is not positive and a window that is not empty, it has
    no defined result: the loop variable never reaches the end of the
    window, so the loop is left, if at all, by an operation that overflows
    its type; whatever the fuel, the model yields no value. *)
Theorem window_loop_needs_positive_dilation fuel (m : mem scalar) w v ei D
  vs2 voff xi attn acc :
  D <= 0 -> xi < ei ->
  window_loop sadd smul fuel m w v ei D vs2 voff xi attn acc = None.
Proof.
  intros HD. revert xi attn acc.
  induction fuel as [|fuel IH]; intros xi attn acc Hx; cbn [window_loop];
    apply Z.ltb_lt in Hx as Hb; rewrite Hb; [reflexivity|].
  destruct (add64 (Some voff) (mul64 xi vs2)); cbn [obind]; [|reflexivity].
  destruct (add64 (Some attn) (Some 1)); cbn [obind]; [|reflexivity].
  destruct (add32 xi D) as [xi'|] eqn:E; cbn [obind]; [|reflexivity].
  apply IH. unfold add32, int32 in E.
  destruct (fits_int32b (xi + D)); [|discriminate].
  injection E as <-. lia.
Qed.

(** X4: on validated input on which no integer operation leaves its type,
    the output is determined by what the kernel reads: two memories that
    agree on the weights and values cells read give the same output
    tensor.  What the output tensor held before the call plays no part. *)
Theorem launch_output_determined_by_reads sched fuel a (m1 m2 : mem scalar) :
  validated a -> machine_safe get_window_start get_window_end a ->
  fair sched ->
  no_alias get_window_start get_window_end a ->
  enough_fuel get_window_start get_window_end a fuel ->
  (forall b h i d, in_shape a b h i d ->
   forall p, In p (reads get_window_start get_window_end a b h i d) ->
   m1 p = m2 p) ->
  exists m1' m2',
    launch szero sadd smul get_window_start get_window_end sched fuel a m1
    = Some m1'
    /\ launch szero sadd smul get_window_start get_window_end sched fuel a m2
       = Some m2'
    /\ forall b h i d, in_shape a b h i d ->
         output_at a m1' b h i d = output_at a m2' b h i d.
Proof.
  intros V MS F NA EF Hm.
  assert (HD : 1 <= Args.dilation a) by (unfold validated in V; tauto).
  destruct (@launch_characterised scalar szero sadd smul get_window_start
              get_window_end sched fuel a m1 F HD MS NA EF)
    as (m1' & R1 & V1 & _).
  destruct (@launch_characterised scalar szero sadd smul get_window_start
              get_window_end sched fuel a m2 F HD MS NA EF)
    as (m2' & R2 & V2 & _).
  exists m1', m2'. split; [exact R1|]. split; [exact R2|].
  intros b h i d Hs. rewrite (V1 _ _ _ _ Hs), (V2 _ _ _ _ Hs).
  apply aggregate_reads. exact (Hm _ _ _ _ Hs).
Qed.

End Behaviour.

Lemma stores_cover_output_witness :
  exists m' log,
    launch_traced 0 Z.add Z.mul WindowGeometry.get_window_start
      WindowGeometry.get_window_end Example.two_threads 3 Example.args
      (Variant.dirty_output, []) = Some (m', log)
    /\ NoDup log
    /\ Permutation log (zrange 0 (numel Example.args))
    /\ List.length log = Z.to_nat (numel Example.args).
Proof.
  apply stores_cover_output.
  - exact example_validated.
  - exact example_machine_safe.
  - exact fair_two_threads.
  - exact example_enough_fuel.
Defined.

Lemma launch_empty_shape_witness :
  launch_traced 0 Z.add Z.mul WindowGeometry.get_window_start
    WindowGeometry.get_window_end sequential 0 Variant.no_heads
    (Example.memory, [])
  = Some (Example.memory, []).
Proof.
  apply launch_empty_shape.
  - exact fair_sequential.
  - vm_compute. repeat split; discriminate.
  - simpl. lia.
Defined.

Lemma window_loop_needs_positive_dilation_witness :
  window_loop Z.add Z.mul 1000 Example.memory 0 100 3 (-1) 2 0 2 6 0 = None.
Proof. apply window_loop_needs_positive_dilation; lia. Defined.

Lemma launch_output_determined_by_reads_witness :
  exists m1' m2',
    launch 0 Z.add Z.mul WindowGeometry.get_window_start
      WindowGeometry.get_window_end sequential 3 Example.args Example.memory
    = Some m1'
    /\ launch 0 Z.add Z.mul WindowGeometry.get_window_start
         WindowGeometry.get_window_end sequential 3 Example.args
         Variant.dirty_output
       = Some m2'
    /\ forall b h i d, in_shape Example.args b h i d ->
         output_at Example.args m1' b h i d
         = output_at Example.args m2' b h i d.
Proof.
  apply launch_output_determined_by_reads.
  - exact example_validated.
  - exact example_machine_safe.
  - exact fair_sequential.
  - exact example_no_alias.
  - exact example_enough_fuel.
  - intros b h i d Hs p Hp. unfold Variant.dirty_output.
    destruct (in_outputb Example.args p) eqn:E; [|reflexivity].
    apply in_outputb_spec in E.
    exfalso. exact (example_no_alias Hs Hp E).
Defined.

(** ** Machine ranges

    The strides and offsets of values and output are [int64_t] in the
    source.  For an element of the shape every one of them, and every
    partial sum in the order in which the source adds them, lies between 0
    and [numel]: none overflows as long as the number of elements of the
    tensor fits. *)
Theorem value_offsets_fit_int64 a b h i d x :
  validated a -> in_shape a b h i d -> 0 <= x < Args.length a ->
  numel a <= INT64_MAX ->
  fits_int64 (values_stride_2 a) /\ fits_int64 (values_stride_1 a)
  /\ fits_int64 (values_stride_0 a)
  /\ fits_int64 (b * values_stride_0 a) /\ fits_int64 (h * values_stride_1 a)
  /\ fits_int64 (b * values_stride_0 a + h * values_stride_1 a)
  /\ fits_int64 (b * values_stride_0 a + h * values_stride_1 a + d)
  /\ fits_int64 (x * values_stride_2 a)
  /\ fits_int64 (b * values_stride_0 a + h * values_stride_1 a + d
                 + x * values_stride_2 a)
  /\ fits_int64 (i * values_stride_2 a)
  /\ fits_int64 (b * values_stride_0 a + h * values_stride_1 a
                 + i * values_stride_2 a)
  /\ fits_int64 (linear_index a b h i d).
Proof.
  intros (VB & VH & VL & VD & _) (Hb & Hh & Hi & Hd) Hx Hn.
  unfold fits_int64, INT64_MAX, linear_index, numel, values_stride_0,
    values_stride_1, values_stride_2 in *.
  set (D := Args.dim a) in *. set (L := Args.length a) in *.
  set (H := Args.heads a) in *. set (B := Args.batch_size a) in *.
  assert (P1 : 0 <= L * D) by (apply Z.mul_nonneg_nonneg; lia).
  assert (P2 : 0 <= H * (L * D)) by (apply Z.mul_nonneg_nonneg; lia).
  assert (Q0 : 0 <= b * (H * (L * D))) by (apply Z.mul_nonneg_nonneg; lia).
  assert (Q1 : 0 <= h * (L * D)) by (apply Z.mul_nonneg_nonneg; lia).
  assert (Q2 : 0 <= i * D) by (apply Z.mul_nonneg_nonneg; lia).
  assert (Q3 : 0 <= x * D) by (apply Z.mul_nonneg_nonneg; lia).
  assert (R2 : i * D + D <= L * D).
  { replace (i * D + D) with ((i + 1) * D) by ring.
    apply Z.mul_le_mono_nonneg_r; lia. }
  assert (R3 : x * D + D <= L * D).
  { replace (x * D + D) with ((x + 1) * D) by ring.
    apply Z.mul_le_mono_nonneg_r; lia. }
  assert (R1 : h * (L * D) + L * D <= H * (L * D)).
  { replace (h * (L * D) + L * D) with ((h + 1) * (L * D)) by ring.
    apply Z.mul_le_mono_nonneg_r; lia. }
  assert (R0 : b * (H * (L * D)) + H * (L * D) <= B * (H * (L * D))).
  { replace (b * (H * (L * D)) + H * (L * D))
      with ((b + 1) * (H * (L * D))) by ring.
    apply Z.mul_le_mono_nonneg_r; lia. }
  assert (S1 : D <= L * D).
  { replace D with (1 * D) at 1 by ring.
    apply Z.mul_le_mono_nonneg_r; lia. }
  assert (M : 0 < 2 ^ 63) by reflexivity.
  repeat split; lia.
Qed.

Lemma value_offsets_fit_int64_witness :
  fits_int64 (values_stride_2 Example.args)
  /\ fits_int64 (values_stride_1 Example.args)
  /\ fits_int64 (values_stride_0 Example.args)
  /\ fits_int64 (1 * values_stride_0 Example.args)
  /\ fits_int64 (1 * values_stride_1 Example.args)
  /\ fits_int64 (1 * values_stride_0 Example.args
                 + 1 * values_stride_1 Example.args)
  /\ fits_int64 (1 * values_stride_0 Example.args
                 + 1 * values_stride_1 Example.args + 1)
  /\ fits_int64 (3 * values_stride_2 Example.args)
  /\ fits_int64 (1 * values_stride_0 Example.args
                 + 1 * values_stride_1 Example.args + 1
                 + 3 * values_stride_2 Example.args)
  /\ fits_int64 (4 * values_stride_2 Example.args)
  /\ fits_int64 (1 * values_stride_0 Example.args
                 + 1 * values_stride_1 Example.args
                 + 4 * values_stride_2 Example.args)
  /\ fits_int64 (linear_index Example.args 1 1 4 1).
Proof.
  apply (@value_offsets_fit_int64 Example.args 1 1 4 1 3).
  - exact example_validated.
  - unfold in_shape; simpl; lia.
  - simpl; lia.
  - vm_compute. discriminate.
Defined.

(** ** The wrappers of source_19.cu *)

Lemma NoDup_by_check (l : list Z) :
  (fix check (l : list Z) : bool :=
     match l with
     | [] => true
     | x :: l' => negb (existsb (Z.eqb x) l') && check l'
     end) l = true ->
  NoDup l.
Proof.
  induction l as [|x l IH]; intros H; [constructor|].
  apply andb_true_iff in H. destruct H as [Hx Hl].
  constructor; [|auto].
  intros I. apply negb_true_iff in Hx.
  assert (E : existsb (Z.eqb x) l = true)
    by (apply existsb_exists; exists x; split; [exact I | apply Z.eqb_refl]).
  congruence.
Qed.

(** Every wrapper of the file carries the name that the scheme gives to its
    template arguments: [GemmConfig2D] has thirteen arguments, of which the
    first nine are the three tile shapes of the name, the tenth the number
    of stages and the last the radius [r] of the kernel size [2 r + 1] of
    the name; [AlignmentConfig] is [<1, n, n>] for the alignment [n] of the
    name; [ArchArgs] and [DTypeConfig] agree on the element type.  The
    kernel sizes are the odd numbers from 11 to 21, the alignments are 2, 4
    or 8, and no two wrappers share kernel size and alignment. *)
Theorem source_19_wrappers_follow_scheme :
  Forall (fun w =>
            Gemm2D.name w
            = Gemm2D.scheme_name (Gemm2D.gemm_config w) (Gemm2D.arch w)
                (Gemm2D.alignment_config w) (Gemm2D.dtype w)
            /\ List.length (Gemm2D.gemm_config w) = 13%nat
            /\ Gemm2D.alignment_config w
               = [1; Gemm2D.alignment w; Gemm2D.alignment w]
            /\ Gemm2D.arch_dtype w = Gemm2D.dtype w
            /\ 11 <= Gemm2D.kernel_size w <= 21
            /\ Z.odd (Gemm2D.kernel_size w) = true
            /\ In (Gemm2D.alignment w) [2; 4; 8])
         Gemm2D.source_19
  /\ NoDup (map (fun w => (Gemm2D.kernel_size w, Gemm2D.alignment w))
                Gemm2D.source_19).
Proof.
  split.
  - unfold Gemm2D.source_19.
    repeat (apply Forall_cons;
            [split; [vm_compute; reflexivity|];
             split; [reflexivity|];
             split; [reflexivity|];
             split; [reflexivity|];
             split; [vm_compute; split; discriminate|];
             split; [reflexivity|];
             vm_compute; tauto|]).
    apply Forall_nil.
  - apply (NoDup_map_inv (fun p : Z * Z => fst p * 16 + snd p)).
    rewrite map_map. apply NoDup_by_check. vm_compute. reflexivity.
Qed.

(** ** The windows the kernel visits

    What follows is about the window functions as modelled in
    [WindowGeometry]. *)

Module WindowShape.

Import WindowGeometry.

(** Position [p] of a residue class with [Ls] positions lies on the axis. *)
Lemma class_position_on_axis r D L p :
  1 <= D -> p + 1 <= (L - r + D - 1) / D -> p * D + r <= L - 1.
Proof.
  intros HD Hp.
  assert ((p + 1) * D <= (L - r + D - 1) / D * D)
    by (apply Z.mul_le_mono_nonneg_r; lia).
  pose proof (Z.mul_div_le (L - r + D - 1) D ltac:(lia)). lia.
Qed.

Lemma class_holds_kernel r D L K :
  1 <= D -> 0 <= r < D -> K * D <= L -> K <= (L - r + D - 1) / D.
Proof. intros HD Hr HK. apply Z.div_le_lower_bound; lia. Qed.

Lemma class_holds_query q r D L :
  1 <= D -> q * D + r <= L - 1 -> q + 1 <= (L - r + D - 1) / D.
Proof. intros HD H. apply Z.div_le_lower_bound; lia. Qed.

Lemma odd_kernel K : 1 <= K -> Z.odd K = true -> K = 2 * Z.quot K 2 + 1.
Proof.
  intros HK HO. rewrite Z.quot_div_nonneg by lia.
  pose proof (Z.div_mod K 2 ltac:(lia)) as E.
  rewrite Zmod_odd, HO in E. exact E.
Qed.

(** Every neighbor of [i] is in the residue class of [i] modulo the
    dilation, so the windows of two query positions in different classes
    have no position in common. *)
Theorem windows_stay_in_their_class a i j k k' :
  1 <= Args.dilation a -> 0 <= i -> 0 <= j ->
  i mod Args.dilation a <> j mod Args.dilation a ->
  (neighbor get_window_start a i k) mod Args.dilation a
  = i mod Args.dilation a
  /\ neighbor get_window_start a i k <> neighbor get_window_start a j k'.
Proof.
  intros HD Hi Hj Hne.
  assert (C : forall x n, 0 <= x ->
            (neighbor get_window_start a x n) mod Args.dilation a
            = x mod Args.dilation a).
  { intros x n Hx. unfold neighbor, window_start.
    rewrite Z.mod_add by lia. apply WindowFacts.start_congruent; lia. }
  split; [apply C; exact Hi|].
  intros E. apply Hne. rewrite <- (C i k Hi), <- (C j k' Hj). now rewrite E.
Qed.

(** Not causal, with [kernel_size * dilation <= length]: every window
    holds exactly [kernel_size] neighbors, the query position among them:
    near the boundary the window slides, it does not shrink. *)
Theorem full_window a i :
  validated a -> Args.is_causal a = false ->
  Args.kernel_size a * Args.dilation a <= Args.length a ->
  0 <= i < Args.length a ->
  num_neighbors get_window_start get_window_end a i = Args.kernel_size a
  /\ exists k, 0 <= k < Args.kernel_size a
               /\ neighbor get_window_start a i k = i.
Proof.
  intros (_ & _ & _ & _ & HK & HO & HD) HC HKD Hi.
  unfold num_neighbors, neighbor, window_end, window_start,
    get_window_end, get_window_start. rewrite HC.
  set (D := Args.dilation a) in *. set (K := Args.kernel_size a) in *.
  set (L := Args.length a) in *.
  pose proof (odd_kernel HK HO) as EK. fold K in EK.
  set (R := Z.quot K 2) in *.
  rewrite (Z.rem_mod_nonneg i D), !(Z.quot_div_nonneg i D) by lia.
  pose proof (Z.mod_pos_bound i D ltac:(lia)) as Hr.
  pose proof (Z.div_mod i D ltac:(lia)) as Ei.
  set (r := i mod D) in *. set (q := i / D) in *.
  rewrite (Z.quot_div_nonneg (L - r + D - 1) D) by lia.
  assert (Hq0 : 0 <= q) by (apply Z.div_pos; lia).
  pose proof (@class_holds_kernel r D L K HD Hr HKD) as HLs.
  pose proof (@class_holds_query q r D L HD ltac:(lia)) as HqLs.
  set (Ls := (L - r + D - 1) / D) in *.
  set (S := Z.max 0 (Z.max 0 (q - R) - Z.max 0 (q + R - (Ls - 1)))).
  assert (HS : 0 <= S /\ S + K <= Ls /\ S <= q <= S + K - 1)
    by (unfold S; lia).
  destruct HS as (HS0 & HS1 & HS2).
  pose proof (@class_position_on_axis r D L (S + K - 1) HD ltac:(fold Ls; lia))
    as Hlast.
  split.
  - assert (A : K - 1 < steps_below (S * D + r) D
                          (Z.min L (S * D + r + K * D))).
    { apply steps_below_spec; [lia | lia |]. nia. }
    assert (B : ~ K < steps_below (S * D + r) D
                         (Z.min L (S * D + r + K * D))).
    { assert (HK0 : 0 <= K) by lia.
      intros F. apply (proj2 (steps_below_spec _ _ HD HK0)) in F.
      lia. }
    lia.
  - exists (q - S). split; [lia|]. nia.
Qed.

(** Causal: the window of [i] holds [min(kernel_size, i / dilation + 1)]
    neighbors and the last of them is [i] itself. *)
Theorem causal_window_grows a i :
  validated a -> Args.is_causal a = true -> 0 <= i < Args.length a ->
  let n := Z.min (Args.kernel_size a) (i / Args.dilation a + 1) in
  num_neighbors get_window_start get_window_end a i = n
  /\ neighbor get_window_start a i (n - 1) = i.
Proof.
  intros (_ & _ & _ & _ & HK & _ & HD) HC Hi n. subst n.
  unfold num_neighbors, neighbor, window_end, window_start,
    get_window_end, get_window_start. rewrite HC.
  set (D := Args.dilation a) in *. set (K := Args.kernel_size a) in *.
  rewrite (Z.rem_mod_nonneg i D), !(Z.quot_div_nonneg i D) by lia.
  pose proof (Z.mod_pos_bound i D ltac:(lia)) as Hr.
  pose proof (Z.div_mod i D ltac:(lia)) as Ei.
  set (r := i mod D) in *. set (q := i / D) in *.
  assert (Hq0 : 0 <= q) by (apply Z.div_pos; lia).
  set (S := Z.max 0 (q - K + 1)).
  assert (En : Z.min K (q + 1) = q - S + 1) by (unfold S; lia).
  assert (HS : 0 <= S <= q) by (unfold S; lia).
  rewrite En. split.
  - assert (A : q - S < steps_below (S * D + r) D (i + 1)).
    { apply steps_below_spec; [lia | lia |]. nia. }
    assert (B : ~ q - S + 1 < steps_below (S * D + r) D (i + 1)).
    { assert (Hn0 : 0 <= q - S + 1) by lia.
      intros F. apply (proj2 (steps_below_spec _ _ HD Hn0)) in F.
      nia. }
    lia.
  - nia.
Qed.

End WindowShape.

Lemma dilated_validated causal : validated (dilated_args causal).
Proof. unfold validated; simpl. repeat split; lia. Qed.

Lemma windows_stay_in_their_class_witness :
  (neighbor WindowGeometry.get_window_start (dilated_args false) 4 1)
    mod Args.dilation (dilated_args false)
  = 4 mod Args.dilation (dilated_args false)
  /\ neighbor WindowGeometry.get_window_start (dilated_args false) 4 1
     <> neighbor WindowGeometry.get_window_start (dilated_args false) 5 0.
Proof.
  apply WindowShape.windows_stay_in_their_class; simpl; try lia.
  vm_compute. discriminate.
Defined.

Lemma full_window_witness :
  num_neighbors WindowGeometry.get_window_start WindowGeometry.get_window_end
    (dilated_args false) 8
  = Args.kernel_size (dilated_args false)
  /\ exists k, 0 <= k < Args.kernel_size (dilated_args false)
               /\ neighbor WindowGeometry.get_window_start
                    (dilated_args false) 8 k = 8.
Proof.
  apply WindowShape.full_window.
  - exact (dilated_validated false).
  - reflexivity.
  - simpl. lia.
  - simpl. lia.
Defined.

Lemma causal_window_grows_witness :
  let n := Z.min (Args.kernel_size (dilated_args true))
                 (3 / Args.dilation (dilated_args true) + 1) in
  num_neighbors WindowGeometry.get_window_start WindowGeometry.get_window_end
    (dilated_args true) 3 = n
  /\ neighbor WindowGeometry.get_window_start (dilated_args true) 3 (n - 1)
     = 3.
Proof.
  apply WindowShape.causal_window_grows.
  - exact (dilated_validated true).
  - reflexivity.
  - simpl. lia.
Defined.

(** ** The entry point on tensors in their documented layout *)

(** X11: [operator()] on a validated shape, with the weights contiguous in
    the layout [batch, heads, length, kernel_size], both tensors small
    enough for their offsets to fit [int64_t], [length + dilation] at most
    [2^31], the output tensor apart from weights and values, and the window
    functions as modelled in [WindowGeometry]: whatever the scheduler, the
    call returns (fuel for [kernel_size] iterations of the innermost loop
    is enough), the output tensor holds the aggregates computed on the
    memory the call received, and every cell outside the output tensor is
    unchanged. *)
Theorem operator_on_contiguous_tensors (scalar : Type) (szero : scalar)
  (sadd smul : scalar -> scalar -> scalar) sched fuel
  attn_ptr value_ptr output_ptr B H L dim K D causal (m : mem scalar) :
  let a := Args.Make attn_ptr value_ptr output_ptr L H K D dim B
             (H * (L * K)) (L * K) K causal in
  validated a -> fair sched -> separated a -> K <= Z.of_nat fuel ->
  numel a <= INT64_MAX -> weights_numel a <= INT64_MAX -> L + D <= 2 ^ 31 ->
  exists m',
    NeighborhoodNeighborhood1D szero sadd smul sched fuel
      attn_ptr value_ptr output_ptr B H L dim (H * (L * K)) (L * K) K
      K D causal m = Some m'
    /\ (forall b h i d, in_shape a b h i d ->
          output_at a m' b h i d
          = aggregate szero sadd smul WindowGeometry.get_window_start
              WindowGeometry.get_window_end a m b h i d)
    /\ (forall p, ~ in_output a p -> m' p = m p).
Proof.
  intros a V F S Hf Hn Hw HLD.
  assert (HD : 1 <= Args.dilation a) by (unfold validated in V; tauto).
  assert (HK : 1 <= Args.kernel_size a) by (unfold validated in V; tauto).
  assert (WC : weights_contiguous a)
    by (unfold weights_contiguous, a; simpl; auto).
  assert (MS : machine_safe WindowGeometry.get_window_start
                 WindowGeometry.get_window_end a)
    by (apply contiguous_machine_safe; assumption).
  assert (NA : no_alias WindowGeometry.get_window_start
                 WindowGeometry.get_window_end a)
    by (apply separated_no_alias; assumption).
  assert (EF : enough_fuel WindowGeometry.get_window_start
                 WindowGeometry.get_window_end a fuel).
  { intros i Hi.
    pose proof (@num_neighbors_le_kernel a i (proj1 Hi) HD ltac:(lia)) as Hk.
    simpl in Hk. lia. }
  destruct (@launch_characterised scalar szero sadd smul
              WindowGeometry.get_window_start WindowGeometry.get_window_end
              sched fuel a m F HD MS NA EF) as (m' & Hrun & Hout & Hfr).
  exists m'. split; [exact Hrun|]. split; [exact Hout|].
  intros p Hp. apply Hfr. intros b h i d Hs E. apply Hp.
  pose proof (linear_index_bound Hs). unfold in_output. lia.
Qed.

Lemma operator_on_contiguous_tensors_witness :
  exists m',
    NeighborhoodNeighborhood1D 0 Z.add Z.mul Example.two_threads 3
      0 100 200 2 2 5 2 (2 * (5 * 3)) (5 * 3) 3 3 1 false Example.memory
    = Some m'
    /\ (forall b h i d, in_shape Example.args b h i d ->
          output_at Example.args m' b h i d
          = aggregate 0 Z.add Z.mul WindowGeometry.get_window_start
              WindowGeometry.get_window_end Example.args Example.memory
              b h i d)
    /\ (forall p, ~ in_output Example.args p -> m' p = Example.memory p).
Proof.
  apply (@operator_on_contiguous_tensors Z 0 Z.add Z.mul Example.two_threads
           3%nat 0 100 200 2 2 5 2 3 1 false Example.memory).
  - exact example_validated.
  - exact fair_two_threads.
  - unfold separated, numel, weights_numel; simpl. lia.
  - simpl. lia.
  - vm_compute. discriminate.
  - vm_compute. discriminate.
  - vm_compute. discriminate.
Defined.

(** ** Termination *)

Lemma bounded_on_list (f : Z -> Z) (l : list Z) :
  exists n : nat, forall x, In x l -> f x <= Z.of_nat n.
Proof.
  induction l as [|y l [n IH]].
  - exists O. intros x [].
  - exists (Nat.max n (Z.to_nat (f y))). intros x [<- | Hx].
    + lia.
    + specialize (IH x Hx). lia.
Qed.

(** X12: for validated input on which no integer operation leaves its
    type the call returns: there is an amount of fuel from which on
    [launch] yields a memory, under every fair scheduler, whatever the
    memory holds, whether or not the output overlaps the inputs, and
    whatever windows the window functions return. *)
Theorem launch_returns (scalar : Type) (szero : scalar)
  (sadd smul : scalar -> scalar -> scalar) gws gwe a :
  validated a -> machine_safe gws gwe a ->
  exists fuel0 : nat,
    forall fuel sched (m : mem scalar),
      (fuel0 <= fuel)%nat -> fair sched ->
      exists m', launch szero sadd smul gws gwe sched fuel a m = Some m'.
Proof.
  intros V MS.
  assert (HD : 1 <= Args.dilation a) by (unfold validated in V; tauto).
  destruct (bounded_on_list (num_neighbors gws gwe a)
              (zrange 0 (Args.length a))) as [n Hn].
  exists n. intros fuel sched m Hf F.
  assert (EF : enough_fuel gws gwe a fuel).
  { intros i Hi. apply in_zrange in Hi. specialize (Hn i Hi). lia. }
  destruct (@elements_run scalar szero sadd smul gws gwe (jobs sched a) fuel
              a (m, []) (fun c Hc => proj1 (in_jobs a c F) Hc) HD MS EF)
    as (m' & Hrun).
  exists m'. unfold launch.
  rewrite launch_traced_as_jobs by apply MS. rewrite Hrun. reflexivity.
Qed.

Lemma launch_returns_witness :
  exists fuel0 : nat,
    forall fuel sched (m : mem Z),
      (fuel0 <= fuel)%nat -> fair sched ->
      exists m',
        launch 0 Z.add Z.mul WindowGeometry.get_window_start
          WindowGeometry.get_window_end sched fuel Example.args m = Some m'.
Proof.
  apply launch_returns.
  - exact example_validated.
  - exact example_machine_safe.
Defined.

(** ** The loop variable and its type *)

(** X13: the sizes being validated does not keep the loop variable of the
    window loop inside [int32_t].  With length 5, kernel size 3,
    [causal = true] and dilation [2^31 - 1] the window of query position 1
    is [1, 2); after its one iteration [xi += dilation] adds [2^31 - 1]
    to 1, which no [int32_t] holds: the call has no defined result, under
    any fair scheduler and with any fuel. *)
Theorem loop_variable_overflows (scalar : Type) (szero : scalar)
  (sadd smul : scalar -> scalar -> scalar) sched fuel (m : mem scalar) :
  fair sched ->
  validated Variant.wide_dilation
  /\ launch szero sadd smul WindowGeometry.get_window_start
       WindowGeometry.get_window_end sched fuel Variant.wide_dilation m
     = None.
Proof.
  intros F. split.
  - unfold validated. simpl. repeat split; try lia. discriminate.
  - unfold launch. rewrite launch_traced_as_jobs.
    + rewrite fold_opt_fails with (x := Coord 0 0 1 0); [reflexivity | |].
      * apply (in_jobs _ _ F). unfold in_shape. simpl. lia.
      * intros s. destruct fuel; reflexivity.
    + unfold strides_fit, fits_int64. vm_compute.
      repeat split; discriminate.
Qed.

Lemma loop_variable_overflows_witness :
  validated Variant.wide_dilation
  /\ launch 0 Z.add Z.mul WindowGeometry.get_window_start
       WindowGeometry.get_window_end sequential 3 Variant.wide_dilation
       Example.memory
     = None.
Proof. apply loop_variable_overflows. exact fair_sequential. Defined.
